(** * ART-AI decision-and-simulation core: a shallow embedding

    The backend of the repository (env.py, attack_engine.py, ai_agent.py,
    storage.py, ai/knowledge.py and the simulation loop of main.py) is
    embedded function by function.  Conventions:

    - a Python [float] is an exact rational ([Q]); every literal of the
      reward and scoring code is a small decimal, and the statements below
      are read up to [Qeq];
    - a mutated object is threaded explicitly: a method that mutates
      [EnvironmentState] returns the new state next to its result;
    - the calls to [random.random()] and [random.randint] are inputs of
      [execute_attack] (record [Draws]), so that "for every random draw"
      is a universal quantification;
    - Python truthiness ([if x:], [x or y]) is written out. *)

From Stdlib Require Import ZArith QArith Qabs Qminmax Lqa Lia.
From Stdlib Require Import String Ascii List DecimalString Sorted.
From stdpp Require Import gmap strings list fin_maps.

Local Open Scope string_scope.
Local Open Scope list_scope.
Local Open Scope Z_scope.

(** ** Python helpers *)

Module Py.

(** [bool(s)] for an [Optional[str]]: [None] and the empty string are falsy. *)
Definition truthy (o : option string) : bool :=
  match o with
  | Some s => negb (String.eqb s "")
  | None => false
  end.

(** [str.__ge__]: comparison of two strings by code points. *)
Definition str_ge (a b : string) : bool := String.leb b a.

(** [x or d] for an optional float: [None] and [0.0] are falsy. *)
Definition float_or (x : option Q) (d : Q) : Q :=
  match x with
  | Some v => if Qeq_bool v 0 then d else v
  | None => d
  end.

(** [str(n)] for an integer. *)
Definition str_of_int (n : Z) : string := NilZero.string_of_int (Z.to_int n).

End Py.

(** ** env.py *)

Module Env.

(** [class AccessLevel(str, Enum)] *)
Inductive AccessLevel : Set := NONE | PUBLIC | INTERNAL | ADMIN.

#[global] Instance AccessLevel_eq_dec : EqDecision AccessLevel.
Proof. solve_decision. Defined.

(** The string each member carries ([member.value]). *)
Definition value (l : AccessLevel) : string :=
  match l with
  | NONE => "none"
  | PUBLIC => "public"
  | INTERNAL => "internal"
  | ADMIN => "admin"
  end.

(** The [order] dictionary of [__lt__]. *)
Definition order (l : AccessLevel) : Z :=
  match l with
  | NONE => 0
  | PUBLIC => 1
  | INTERNAL => 2
  | ADMIN => 3
  end.

(** [AccessLevel.__lt__] *)
Definition lt (self other : AccessLevel) : bool := order self <? order other.

(** [AccessLevel.__le__] *)
Definition le (self other : AccessLevel) : bool :=
  bool_decide (self = other) || lt self other.

(** [self >= other].  The class overrides [__lt__] and [__le__] only;
    [Enum] defines no ordering, so [>=] between two members resolves to
    [str.__ge__] of the mixed-in [str] and compares the string values. *)
Definition ge (self other : AccessLevel) : bool :=
  Py.str_ge (value self) (value other).

(** [AccessLevel.can_escalate_to] *)
Definition can_escalate_to (self target : AccessLevel) : bool := lt self target.

(** [@dataclass class EnvironmentState] *)
Record EnvironmentState : Type := mkState {
  current_access_level : AccessLevel;
  visited_components : gset string;
  blocked_ips : gset string;
  discovered_services : list string;
  discovered_vulnerabilities : list string;
  iteration_count : Z;
  strategic_hint : option string;
  hint_available : Z;
  hint_service : option string;
  hint_confidence : Q;
  hint_followed : bool;
  hint_success : bool
}.

(** The dataclass defaults: the state a fresh [EnvironmentState()] has. *)
Definition initial : EnvironmentState :=
  {| current_access_level := NONE;
     visited_components := ∅;
     blocked_ips := ∅;
     discovered_services := [];
     discovered_vulnerabilities := [];
     iteration_count := 0;
     strategic_hint := None;
     hint_available := 0;
     hint_service := None;
     hint_confidence := 0%Q;
     hint_followed := false;
     hint_success := false |}.

(** What [librarian.get_best_hint(service_name)] hands to
    [_query_strategic_hints]: the hinted action's string and the
    confidence ([None]: no hint, or the query raised). *)
Definition BestHint : Type := option (string * Q).

(** [EnvironmentState._query_strategic_hints] *)
Definition _query_strategic_hints (st : EnvironmentState)
    (service_name : string) (hint : BestHint) : EnvironmentState :=
  match hint with
  | Some (action, confidence) =>
      {| current_access_level := current_access_level st;
         visited_components := visited_components st;
         blocked_ips := blocked_ips st;
         discovered_services := discovered_services st;
         discovered_vulnerabilities := discovered_vulnerabilities st;
         iteration_count := iteration_count st;
         strategic_hint := Some action;
         hint_available := 1;
         hint_service := Some service_name;
         hint_confidence := confidence;
         hint_followed := hint_followed st;
         hint_success := hint_success st |}
  | None => st
  end.

(** [EnvironmentState.reset].  [target] is [Some (service, hint)] when both
    a librarian and a truthy target service are passed, [hint] being the
    librarian's answer. *)
Definition reset (st : EnvironmentState)
    (target : option (string * BestHint)) : EnvironmentState :=
  match target with
  | Some (service_name, hint) =>
      _query_strategic_hints initial service_name hint
  | None => initial
  end.

(** [EnvironmentState.check_hint_match] *)
Definition check_hint_match (st : EnvironmentState) (action : string) : bool :=
  if negb (Py.truthy (strategic_hint st)) then false
  else bool_decide (Some action = strategic_hint st).

(** [EnvironmentState.mark_hint_followed] *)
Definition mark_hint_followed (st : EnvironmentState) (success : bool)
    : EnvironmentState :=
  {| current_access_level := current_access_level st;
     visited_components := visited_components st;
     blocked_ips := blocked_ips st;
     discovered_services := discovered_services st;
     discovered_vulnerabilities := discovered_vulnerabilities st;
     iteration_count := iteration_count st;
     strategic_hint := strategic_hint st;
     hint_available := hint_available st;
     hint_service := hint_service st;
     hint_confidence := hint_confidence st;
     hint_followed := true;
     hint_success := success |}.

Definition set_level (st : EnvironmentState) (l : AccessLevel)
    : EnvironmentState :=
  {| current_access_level := l;
     visited_components := visited_components st;
     blocked_ips := blocked_ips st;
     discovered_services := discovered_services st;
     discovered_vulnerabilities := discovered_vulnerabilities st;
     iteration_count := iteration_count st;
     strategic_hint := strategic_hint st;
     hint_available := hint_available st;
     hint_service := hint_service st;
     hint_confidence := hint_confidence st;
     hint_followed := hint_followed st;
     hint_success := hint_success st |}.

(** [EnvironmentState.escalate_access]: the flag returned and the state. *)
Definition escalate_access (st : EnvironmentState) (new_level : AccessLevel)
    : bool * EnvironmentState :=
  if lt (current_access_level st) new_level
  then (true, set_level st new_level)
  else (false, st).

(** [EnvironmentState.add_visited_component] *)
Definition add_visited_component (st : EnvironmentState) (component : string)
    : EnvironmentState :=
  {| current_access_level := current_access_level st;
     visited_components := visited_components st ∪ {[component]};
     blocked_ips := blocked_ips st;
     discovered_services := discovered_services st;
     discovered_vulnerabilities := discovered_vulnerabilities st;
     iteration_count := iteration_count st;
     strategic_hint := strategic_hint st;
     hint_available := hint_available st;
     hint_service := hint_service st;
     hint_confidence := hint_confidence st;
     hint_followed := hint_followed st;
     hint_success := hint_success st |}.

(** [EnvironmentState.is_blocked] *)
Definition is_blocked (st : EnvironmentState) (ip : string) : bool :=
  bool_decide (ip ∈ blocked_ips st).

(** [EnvironmentState.block_ip] *)
Definition block_ip (st : EnvironmentState) (ip : string) : EnvironmentState :=
  {| current_access_level := current_access_level st;
     visited_components := visited_components st;
     blocked_ips := blocked_ips st ∪ {[ip]};
     discovered_services := discovered_services st;
     discovered_vulnerabilities := discovered_vulnerabilities st;
     iteration_count := iteration_count st;
     strategic_hint := strategic_hint st;
     hint_available := hint_available st;
     hint_service := hint_service st;
     hint_confidence := hint_confidence st;
     hint_followed := hint_followed st;
     hint_success := hint_success st |}.

(** [state.discovered_vulnerabilities.append(v)] *)
Definition append_vulnerability (st : EnvironmentState) (v : string)
    : EnvironmentState :=
  {| current_access_level := current_access_level st;
     visited_components := visited_components st;
     blocked_ips := blocked_ips st;
     discovered_services := discovered_services st;
     discovered_vulnerabilities := discovered_vulnerabilities st ++ [v];
     iteration_count := iteration_count st;
     strategic_hint := strategic_hint st;
     hint_available := hint_available st;
     hint_service := hint_service st;
     hint_confidence := hint_confidence st;
     hint_followed := hint_followed st;
     hint_success := hint_success st |}.

End Env.

(** ** attack_engine.py *)

Module AttackEngine.
Import Env.

(** [class AttackAction(str, Enum)] *)
Inductive AttackAction : Set :=
| PUBLIC_ACCESS_ATTEMPT
| TOKEN_REUSE_ATTEMPT
| PRIVILEGE_ESCALATION_ATTEMPT
| LATERAL_MOVEMENT_ATTEMPT
| SQL_INJECTION_ATTEMPT
| XSS_ATTEMPT
| PATH_TRAVERSAL_ATTEMPT
| COMMAND_INJECTION_ATTEMPT
| AUTHENTICATION_BYPASS_ATTEMPT
| SESSION_HIJACK_ATTEMPT.

#[global] Instance AttackAction_eq_dec : EqDecision AttackAction.
Proof. solve_decision. Defined.

(** [action.value] *)
Definition action_value (a : AttackAction) : string :=
  match a with
  | PUBLIC_ACCESS_ATTEMPT => "public_access_attempt"
  | TOKEN_REUSE_ATTEMPT => "token_reuse_attempt"
  | PRIVILEGE_ESCALATION_ATTEMPT => "privilege_escalation_attempt"
  | LATERAL_MOVEMENT_ATTEMPT => "lateral_movement_attempt"
  | SQL_INJECTION_ATTEMPT => "sql_injection_attempt"
  | XSS_ATTEMPT => "xss_attempt"
  | PATH_TRAVERSAL_ATTEMPT => "path_traversal_attempt"
  | COMMAND_INJECTION_ATTEMPT => "command_injection_attempt"
  | AUTHENTICATION_BYPASS_ATTEMPT => "authentication_bypass_attempt"
  | SESSION_HIJACK_ATTEMPT => "session_hijack_attempt"
  end.

(** [@dataclass class AttackResult] *)
Record AttackResult : Type := mkResult {
  success : bool;
  new_access_level : AccessLevel;
  message : string;
  discovered_component : option string;
  vulnerability_found : option string;
  blocked : bool
}.

(** [SUCCESS_PROBABILITIES[level].get(action)] *)
Definition SUCCESS_PROBABILITIES (level : AccessLevel) (a : AttackAction)
    : option Q :=
  match level, a with
  | NONE, PUBLIC_ACCESS_ATTEMPT => Some (3 # 10)%Q
  | NONE, AUTHENTICATION_BYPASS_ATTEMPT => Some (1 # 10)%Q
  | NONE, SQL_INJECTION_ATTEMPT => Some (15 # 100)%Q
  | PUBLIC, TOKEN_REUSE_ATTEMPT => Some (25 # 100)%Q
  | PUBLIC, SESSION_HIJACK_ATTEMPT => Some (2 # 10)%Q
  | PUBLIC, XSS_ATTEMPT => Some (3 # 10)%Q
  | PUBLIC, PATH_TRAVERSAL_ATTEMPT => Some (2 # 10)%Q
  | INTERNAL, PRIVILEGE_ESCALATION_ATTEMPT => Some (2 # 10)%Q
  | INTERNAL, LATERAL_MOVEMENT_ATTEMPT => Some (3 # 10)%Q
  | INTERNAL, COMMAND_INJECTION_ATTEMPT => Some (15 # 100)%Q
  | ADMIN, LATERAL_MOVEMENT_ATTEMPT => Some (8 # 10)%Q
  | _, _ => None
  end.

(** [ACCESS_ESCALATIONS.get(action)] *)
Definition ACCESS_ESCALATIONS (a : AttackAction) : option AccessLevel :=
  match a with
  | PUBLIC_ACCESS_ATTEMPT => Some PUBLIC
  | AUTHENTICATION_BYPASS_ATTEMPT => Some PUBLIC
  | TOKEN_REUSE_ATTEMPT => Some INTERNAL
  | SESSION_HIJACK_ATTEMPT => Some INTERNAL
  | PRIVILEGE_ESCALATION_ATTEMPT => Some ADMIN
  | LATERAL_MOVEMENT_ATTEMPT => Some INTERNAL
  | _ => None
  end.

(** [VULNERABILITIES.get(action)] *)
Definition VULNERABILITIES (a : AttackAction) : option string :=
  match a with
  | SQL_INJECTION_ATTEMPT => Some "SQL Injection"
  | XSS_ATTEMPT => Some "Cross-Site Scripting (XSS)"
  | PATH_TRAVERSAL_ATTEMPT => Some "Path Traversal"
  | COMMAND_INJECTION_ATTEMPT => Some "Command Injection"
  | _ => None
  end.

(** [self.block_probability], set once by [__init__]. *)
Definition block_probability : Q := (5 # 100)%Q.

(** The identifier under which the simulated attacker is blocked. *)
Definition attacker_ip : string := "attacker_ip".

(** The values the random source returns during one [execute_attack]:
    the two [random.random()] samples and the [random.randint(1, 10)]. *)
Record Draws : Type := mkDraws {
  ids_sample : Q;
  success_sample : Q;
  component_number : Z
}.

(** [AttackEngine._is_action_applicable] *)
Definition _is_action_applicable (a : AttackAction) (current_level : AccessLevel)
    : bool :=
  bool_decide (is_Some (SUCCESS_PROBABILITIES current_level a))
  || bool_decide (is_Some (ACCESS_ESCALATIONS a)).

(** [AttackEngine._get_success_probability] *)
Definition _get_success_probability (a : AttackAction)
    (current_level : AccessLevel) : Q :=
  let base_prob := default (1 # 10)%Q (SUCCESS_PROBABILITIES current_level a) in
  Qmin (base_prob * (11 # 10)) (95 # 100).

(** [AttackEngine._calculate_new_access_level] *)
Definition _calculate_new_access_level (a : AttackAction)
    (current_level : AccessLevel) : AccessLevel :=
  match ACCESS_ESCALATIONS a with
  | Some escalation =>
      if Py.truthy (Some (value escalation)) && lt current_level escalation
      then escalation else current_level
  | None => current_level
  end.

(** [AttackEngine.execute_attack]: the result and the state left behind. *)
Definition execute_attack (a : AttackAction) (st : EnvironmentState) (d : Draws)
    : AttackResult * EnvironmentState :=
  if is_blocked st attacker_ip then
    (mkResult false (current_access_level st) "IP address is blocked"
              None None true, st)
  else if negb (_is_action_applicable a (current_access_level st)) then
    (mkResult false (current_access_level st)
              ("Action " +:+ action_value a +:+ " not applicable at "
               +:+ value (current_access_level st) +:+ " level")
              None None false, st)
  else if Qlt_le_dec (ids_sample d) block_probability then
    let st1 := block_ip st attacker_ip in
    (mkResult false (current_access_level st1)
              "Attack detected and blocked by IDS" None None true, st1)
  else
    let success_prob := _get_success_probability a (current_access_level st) in
    if Qlt_le_dec (success_sample d) success_prob then
      let new_level := _calculate_new_access_level a (current_access_level st) in
      let '(escalated, st1) := escalate_access st new_level in
      let component := "service_" +:+ Py.str_of_int (component_number d) in
      let st2 := add_visited_component st1 component in
      let vulnerability := VULNERABILITIES a in
      let st3 := if Py.truthy vulnerability
                 then append_vulnerability st2 (default "" vulnerability)
                 else st2 in
      (mkResult true (current_access_level st3)
                ("Successfully executed " +:+ action_value a)
                (Some component) vulnerability false, st3)
    else
      (mkResult false (current_access_level st)
                ("Failed to execute " +:+ action_value a) None None false, st).

(** [AttackEngine.get_available_actions].  The source returns
    [list(set(available + base_actions))]; the concatenation has no
    repeated element, and the order of a [set] is unspecified, so the
    result is read through membership. *)
Definition get_available_actions (current_level : AccessLevel)
    : list AttackAction :=
  let available := [] in
  let base_actions := [PUBLIC_ACCESS_ATTEMPT; SQL_INJECTION_ATTEMPT] in
  let available :=
    if ge current_level PUBLIC
    then available ++ [TOKEN_REUSE_ATTEMPT; XSS_ATTEMPT; PATH_TRAVERSAL_ATTEMPT]
    else available in
  let available :=
    if ge current_level INTERNAL
    then available ++ [PRIVILEGE_ESCALATION_ATTEMPT; LATERAL_MOVEMENT_ATTEMPT;
                       COMMAND_INJECTION_ATTEMPT]
    else available in
  remove_dups (available ++ base_actions).

End AttackEngine.

(** ** ai_agent.py *)

Module Agent.
Import Env AttackEngine.

(** [@dataclass class QTable] *)
Record QTable : Type := mkQTable {
  table : gmap string (gmap string Q);
  learning_rate : Q;
  discount_factor : Q;
  epsilon : Q
}.

Definition set_table (self : QTable) (t : gmap string (gmap string Q)) : QTable :=
  {| table := t;
     learning_rate := learning_rate self;
     discount_factor := discount_factor self;
     epsilon := epsilon self |}.

(** [QTable.get_q_value]: reading a state the table has not seen stores an
    empty row for it. *)
Definition get_q_value (self : QTable) (state action : string) : Q * QTable :=
  let self :=
    match table self !! state with
    | None => set_table self (<[state := ∅]> (table self))
    | Some _ => self
    end in
  (default 0%Q (default ∅ (table self !! state) !! action), self).

(** [QTable.set_q_value] *)
Definition set_q_value (self : QTable) (state action : string) (v : Q) : QTable :=
  let self :=
    match table self !! state with
    | None => set_table self (<[state := ∅]> (table self))
    | Some _ => self
    end in
  set_table self
    (<[state := <[action := v]> (default ∅ (table self !! state))]> (table self)).

(** [max(xs)] of a non-empty sequence: the first greatest element. *)
Definition py_max (x : Q) (xs : list Q) : Q :=
  fold_left (fun best y => if Qlt_le_dec best y then y else best) xs x.

(** [max(self.table[s].values()) if self.table[s] else 0.0] *)
Definition max_row (row : gmap string Q) : Q :=
  match (map_to_list row).*2 with
  | [] => 0%Q
  | x :: xs => py_max x xs
  end.

(** [QTable.update_q_value] *)
Definition update_q_value (self : QTable) (state action : string) (reward : Q)
    (next_state : string) (lr_arg gamma_arg : option Q) : QTable :=
  let lr := Py.float_or lr_arg (learning_rate self) in
  let gamma := Py.float_or gamma_arg (discount_factor self) in
  let '(current_q, self) := get_q_value self state action in
  let max_next_q :=
    match table self !! next_state with
    | Some row => max_row row
    | None => 0%Q
    end in
  let new_q := (current_q + lr * (reward + gamma * max_next_q - current_q))%Q in
  set_q_value self state action new_q.

(** [class QLearningAgent] *)
Record QLearningAgent : Type := mkAgent {
  q_table : QTable;
  agent_epsilon : Q;
  epsilon_decay : Q;
  min_epsilon : Q;
  total_rewards : Q;
  episode_count : Z
}.

(** [QLearningAgent.__init__] with its default arguments. *)
Definition new_agent : QLearningAgent :=
  {| q_table := mkQTable ∅ (1 # 10) (9 # 10) (1 # 10);
     agent_epsilon := (1 # 10)%Q;
     epsilon_decay := (995 # 1000)%Q;
     min_epsilon := (1 # 100)%Q;
     total_rewards := 0%Q;
     episode_count := 0 |}.

(** The [access_levels] dictionary of [calculate_reward]. *)
Definition access_levels (l : AccessLevel) : Z :=
  match l with
  | NONE => 0
  | PUBLIC => 1
  | INTERNAL => 2
  | ADMIN => 3
  end.

(** [QLearningAgent.calculate_reward]: the reward and the state, whose
    hint flags the call may set. *)
Definition calculate_reward (result : AttackResult) (st : EnvironmentState)
    (action : string) : Q * EnvironmentState :=
  let reward := 0%Q in
  let hint_match := check_hint_match st action in
  let '(reward, st) :=
    if success result then
      let reward := (reward + 5)%Q in
      let current_level := access_levels (current_access_level st) in
      let new_level := access_levels (new_access_level result) in
      let reward :=
        if new_level >? current_level
        then (reward + 10 * inject_Z (new_level - current_level))%Q
        else reward in
      let reward :=
        if Py.truthy (discovered_component result) then (reward + 2)%Q
        else reward in
      let reward :=
        if Py.truthy (vulnerability_found result) then (reward + 3)%Q
        else reward in
      if hint_match then ((reward + 100)%Q, mark_hint_followed st true)
      else (reward, st)
    else
      let reward := (reward - 2)%Q in
      if (hint_available st =? 1) && negb hint_match
      then ((reward - 1)%Q, st)
      else (reward, st) in
  let '(reward, st) :=
    if hint_match && (hint_available st =? 1) then
      ((reward + 2)%Q,
       if negb (success result) then mark_hint_followed st false else st)
    else (reward, st) in
  let reward := if blocked result then (reward - 10)%Q else reward in
  (reward, st).

(** [QLearningAgent.update_q_value] *)
Definition agent_update_q_value (self : QLearningAgent) (state action : string)
    (reward : Q) (next_state : string) : QLearningAgent :=
  {| q_table := update_q_value (q_table self) state action reward next_state
                               None None;
     agent_epsilon := agent_epsilon self;
     epsilon_decay := epsilon_decay self;
     min_epsilon := min_epsilon self;
     total_rewards := (total_rewards self + reward)%Q;
     episode_count := episode_count self |}.

End Agent.

(** ** main.py: one iteration of the loop of [run_simulation] *)

Module Main.
Import Env AttackEngine Agent.

(** What one iteration leaves behind. *)
Record StepOutcome : Type := mkOutcome {
  step_result : AttackResult;
  step_reward : Q;
  step_env : EnvironmentState;
  step_agent : QLearningAgent
}.

(** The body of the [for] loop once the agent has chosen [action]:
    [execute_attack] on the shared environment, then [calculate_reward] on
    the result and that same environment, then the Q-table update. *)
Definition simulation_step (agent : QLearningAgent) (environment : EnvironmentState)
    (action : AttackAction) (d : Draws) : StepOutcome :=
  let state_key := value (current_access_level environment) in
  let action_str := action_value action in
  let '(result, environment) := execute_attack action environment d in
  let '(reward, environment) := calculate_reward result environment action_str in
  let new_state_key := value (new_access_level result) in
  let agent := agent_update_q_value agent state_key action_str reward new_state_key in
  mkOutcome result reward environment agent.

End Main.

(** ** storage.py *)

Module Storage.

(** The entries of a step dictionary that the store reads:
    [step.get("action")] and [step.get("success")] ([None]: key absent). *)
Record Step : Type := mkStep {
  step_action : option string;
  step_success : option bool
}.

(** A row of the [attack_paths] table. *)
Record PathRow : Type := mkRow {
  row_id : Z;
  final_access_level : string;
  total_iterations : Z;
  successful_attacks : Z;
  failed_attacks : Z;
  row_vulnerabilities : list string;
  attack_path_json : list Step;
  score : Q
}.

(** [level_scores.get(final_access_level, 0)] *)
Definition level_scores (final_access_level : string) : Z :=
  if String.eqb final_access_level "none" then 0
  else if String.eqb final_access_level "public" then 10
  else if String.eqb final_access_level "internal" then 30
  else if String.eqb final_access_level "admin" then 100
  else 0.

(** [AttackPathStorage._calculate_path_score] *)
Definition _calculate_path_score (final_access_level : string)
    (successful_attacks failed_attacks vulnerability_count : Z) : Q :=
  let base_score := inject_Z (level_scores final_access_level) in
  let total_attacks := successful_attacks + failed_attacks in
  let base_score :=
    if total_attacks >? 0 then
      let success_ratio := (inject_Z successful_attacks / inject_Z total_attacks)%Q in
      (base_score * (1 + success_ratio))%Q
    else base_score in
  let base_score := (base_score + inject_Z (vulnerability_count * 5))%Q in
  let base_score :=
    if failed_attacks >? 0
    then (base_score - inject_Z failed_attacks * (1 # 2))%Q
    else base_score in
  base_score.

(** [sum(1 for step in attack_path if step.get("success", False))] *)
Definition count_successes (attack_path : list Step) : Z :=
  Z.of_nat (length (filter (fun st => default false (step_success st) = true)
                           attack_path)).

(** [AttackPathStorage.save_attack_path] on the [attack_paths] table (the
    rows of [path_statistics] written by the same call are left out).
    The table only grows, so [cursor.lastrowid] is its new length. *)
Definition save_attack_path (db : list PathRow) (attack_path : list Step)
    (final_level : string) (vulnerabilities : list string)
    (score_arg : option Q) : Z * list PathRow :=
  let successful := count_successes attack_path in
  let failed := Z.of_nat (length attack_path) - successful in
  let score :=
    match score_arg with
    | None => _calculate_path_score final_level successful failed
                                    (Z.of_nat (length vulnerabilities))
    | Some sc => sc
    end in
  let path_id := Z.of_nat (length db) + 1 in
  (path_id,
   db ++ [mkRow path_id final_level (Z.of_nat (length attack_path)) successful
                failed vulnerabilities attack_path score]).

(** The score formula as the specification words it: the level weight
    times one plus the success ratio, plus five per vulnerability, minus
    one half per failed step; the ratio factor is left out when there is
    no step, the penalty when there is no failure. *)
Definition level_weight (final_level : Env.AccessLevel) : Q :=
  match final_level with
  | Env.NONE => 0%Q
  | Env.PUBLIC => 10%Q
  | Env.INTERNAL => 30%Q
  | Env.ADMIN => 100%Q
  end.

Definition spec_path_score (final_level : Env.AccessLevel)
    (successes failures vulns : Z)
    : Q :=
  (level_weight final_level
     * (if successes + failures =? 0 then 1
        else 1 + inject_Z successes / (inject_Z successes + inject_Z failures))
   + 5 * inject_Z vulns
   - (if failures =? 0 then 0 else (1 # 2) * inject_Z failures))%Q.

End Storage.

(** ** ai/knowledge.py *)

Module Knowledge.

(** [@dataclass class StrategicHint]; [action] carries [Action.value]. *)
Record StrategicHint : Type := mkHint {
  action : string;
  service_name : string;
  exploit_id : option string;
  description : string;
  confidence : Q;
  cve_id : option string;
  exploit_path : option string
}.

(** An execution of one of the two underlying queries. *)
Inductive Query : Type :=
| MockDb (service_name : string) (version : option string)
| Searchsploit (service_name : string) (version : option string).

(** [class ExploitLibrarian].  [queries] is a ghost log of the underlying
    queries executed so far; the source has no such field. *)
Record ExploitLibrarian : Type := mkLibrarian {
  demo_mode : bool;
  searchsploit_available : bool;
  hint_cache : gmap string (list StrategicHint);
  queries : list Query
}.

Section Librarian.

(** [_query_mock_db]: a search of the static catalogue. *)
Variable _query_mock_db : string -> option string -> list StrategicHint.

(** [_query_searchsploit]: the answer depends on an external process,
    hence on the moment of the call, given here by the number of queries
    executed before it. *)
Variable _query_searchsploit : nat -> string -> option string -> list StrategicHint.

(** [f"{service_name}:{service_version or 'unknown'}"] *)
Definition cache_key (service_name : string) (service_version : option string)
    : string :=
  service_name +:+ ":" +:+
    (if Py.truthy service_version then default "" service_version
     else "unknown").

(** [ExploitLibrarian.get_strategic_hints] *)
Definition get_strategic_hints (self : ExploitLibrarian)
    (service_name : string) (service_version : option string)
    : list StrategicHint * ExploitLibrarian :=
  let key := cache_key service_name service_version in
  match hint_cache self !! key with
  | Some hints => (hints, self)
  | None =>
      let '(hints, q) :=
        if searchsploit_available self && negb (demo_mode self)
        then (_query_searchsploit (length (queries self)) service_name
                                  service_version,
              Searchsploit service_name service_version)
        else (_query_mock_db service_name service_version,
              MockDb service_name service_version) in
      (hints,
       {| demo_mode := demo_mode self;
          searchsploit_available := searchsploit_available self;
          hint_cache := <[key := hints]> (hint_cache self);
          queries := queries self ++ [q] |})
  end.

(** [max(hints, key=lambda h: h.confidence)]: the first hint of greatest
    confidence. *)
Definition max_confidence (h : StrategicHint) (hs : list StrategicHint)
    : StrategicHint :=
  fold_left (fun best x =>
               if Qlt_le_dec (confidence best) (confidence x) then x else best)
            hs h.

(** [ExploitLibrarian.get_best_hint] *)
Definition get_best_hint (self : ExploitLibrarian)
    (service_name : string) (version : option string)
    : option StrategicHint * ExploitLibrarian :=
  let '(hints, self) := get_strategic_hints self service_name version in
  match hints with
  | [] => (None, self)
  | h :: hs => (Some (max_confidence h hs), self)
  end.

(** [ExploitLibrarian.clear_cache] *)
Definition clear_cache (self : ExploitLibrarian) : ExploitLibrarian :=
  {| demo_mode := demo_mode self;
     searchsploit_available := searchsploit_available self;
     hint_cache := ∅;
     queries := queries self |}.

(** The calls a client can make on a librarian. *)
Inductive Call : Type :=
| CallHints (service_name : string) (version : option string)
| CallBest (service_name : string) (version : option string)
| CallClear.

Definition is_clear (c : Call) : bool :=
  match c with CallClear => true | _ => false end.

Definition call (self : ExploitLibrarian) (c : Call) : ExploitLibrarian :=
  match c with
  | CallHints s v => (get_strategic_hints self s v).2
  | CallBest s v => (get_best_hint self s v).2
  | CallClear => clear_cache self
  end.

Definition calls (self : ExploitLibrarian) (cs : list Call) : ExploitLibrarian :=
  fold_left call cs self.

End Librarian.

(** [ExploitLibrarian(demo_mode)] just after [__init__]. *)
Definition new_librarian (demo searchsploit_found : bool) : ExploitLibrarian :=
  {| demo_mode := demo;
     searchsploit_available := if demo then false else searchsploit_found;
     hint_cache := ∅;
     queries := [] |}.

End Knowledge.

(** ** Episodes: sequences of calls on one environment *)

Module Episode.
Import Env AttackEngine Agent.

(** Consecutive [execute_attack] calls on the same environment, each with
    its own action and draws: the results in order and the final state. *)
Fixpoint execute_attacks (st : EnvironmentState)
    (steps : list (AttackAction * Draws)) : list AttackResult * EnvironmentState :=
  match steps with
  | [] => ([], st)
  | (a, d) :: rest =>
      let '(r, st1) := execute_attack a st d in
      let '(rs, st2) := execute_attacks st1 rest in
      (r :: rs, st2)
  end.

(** The access level before the first call and after each call. *)
Fixpoint level_trace (st : EnvironmentState)
    (steps : list (AttackAction * Draws)) : list AccessLevel :=
  current_access_level st ::
    match steps with
    | [] => []
    | (a, d) :: rest => level_trace (execute_attack a st d).2 rest
    end.

(** The environment with its hint fields as [reset] leaves them when no
    hint is obtained: what [calculate_reward] sees when there is no hint. *)
Definition without_hint (st : EnvironmentState) : EnvironmentState :=
  {| current_access_level := current_access_level st;
     visited_components := visited_components st;
     blocked_ips := blocked_ips st;
     discovered_services := discovered_services st;
     discovered_vulnerabilities := discovered_vulnerabilities st;
     iteration_count := iteration_count st;
     strategic_hint := None;
     hint_available := 0;
     hint_service := None;
     hint_confidence := 0%Q;
     hint_followed := false;
     hint_success := false |}.

(** [n] consecutive [update_q_value(s, a, r, next_state)] calls. *)
Definition repeat_update (self : QTable) (s a : string) (r : Q)
    (next_state : string) (n : nat) : QTable :=
  Nat.iter n (fun t => update_q_value t s a r next_state None None) self.

(** The new value [update_q_value] computes from [q] when the rows of the
    next state hold no value ([max_next_q = 0.0]). *)
Definition relax (lr gamma r q : Q) : Q := (q + lr * (r + gamma * 0 - q))%Q.

(** [Q(s, a)] as [get_q_value] reports it. *)
Definition q_value (self : QTable) (s a : string) : Q :=
  (get_q_value self s a).1.

End Episode.

(** ** ai_agent.py: action selection, exploration rate, statistics *)

Module Policy.
Import Env AttackEngine Agent.

(** [random.choice(seq)]: the element at a random index below [len(seq)],
    here the draw [pick] reduced modulo the length ([None]: the
    [IndexError] of an empty sequence). *)
Definition choice (seq : list string) (pick : nat) : option string :=
  seq !! (pick `mod` length seq)%nat.

(** [q_value > best_value], where [None] stands for [float('-inf')]. *)
Definition exceeds (q_value : Q) (best_value : option Q) : bool :=
  match best_value with
  | None => true
  | Some b => if Qlt_le_dec b q_value then true else false
  end.

(** The [for] loop of [get_best_action]: the pair
    [(best_action, best_value)] after the actions seen so far.  The state is
    a key of the table there, so [get_q_value] stores nothing. *)
Definition best_scan (self : QTable) (state : string)
    (available_actions : list string) : option string * option Q :=
  fold_left
    (fun '(best_action, best_value) action =>
       let q_value := (get_q_value self state action).1 in
       if exceeds q_value best_value then (Some action, Some q_value)
       else (best_action, best_value))
    available_actions (None, None).

(** [QTable.get_best_action]; [None] is Python's [None]. *)
Definition get_best_action (self : QTable) (state : string)
    (available_actions : list string) (pick : nat) : option string :=
  match available_actions with
  | [] => None
  | _ :: _ =>
      match table self !! state with
      | None => choice available_actions pick
      | Some row =>
          if (size row =? 0)%nat then choice available_actions pick
          else
            let best_action := (best_scan self state available_actions).1 in
            if Py.truthy best_action then best_action
            else choice available_actions pick
      end
  end.

(** [QTable.reset] *)
Definition qtable_reset (self : QTable) : QTable := set_table self ∅.

(** What a call of [choose_action] draws from the random source: the
    sample compared with 0.8, the sample compared with epsilon, and the
    indices of the [random.choice] calls of the explore branch, of
    [get_best_action] and of the final fallback. *)
Record ChoiceDraws : Type := mkChoiceDraws {
  hint_sample : Q;
  explore_sample : Q;
  explore_pick : nat;
  best_pick : nat;
  fallback_pick : nat
}.

(** How a call ends: with an exception or with a value. *)
Inductive Outcome : Type :=
| Raises (error : string)
| Returns (action : string).

Definition of_choice (c : option string) : Outcome :=
  match c with
  | Some a => Returns a
  | None => Raises "IndexError"
  end.

(** [QLearningAgent.choose_action] *)
Definition choose_action (self : QLearningAgent) (state : string)
    (available_actions : list string)
    (environment_state : option EnvironmentState) (d : ChoiceDraws) : Outcome :=
  match available_actions with
  | [] => Raises "ValueError"
  | _ :: _ =>
      let hinted :=
        match environment_state with
        | Some env =>
            if hint_available env =? 1 then
              let hint_action := strategic_hint env in
              if Py.truthy hint_action
                 && bool_decide (default "" hint_action ∈ available_actions)
              then if Qlt_le_dec (hint_sample d) (8 # 10) then hint_action
                   else None
              else None
            else None
        | None => None
        end in
      match hinted with
      | Some hint_action => Returns hint_action
      | None =>
          if Qlt_le_dec (explore_sample d) (agent_epsilon self)
          then of_choice (choice available_actions (explore_pick d))
          else
            let best_action :=
              get_best_action (q_table self) state available_actions
                              (best_pick d) in
            if Py.truthy best_action then of_choice best_action
            else of_choice (choice available_actions (fallback_pick d))
      end
  end.

(** [QLearningAgent.decay_epsilon] *)
Definition decay_epsilon (self : QLearningAgent) : QLearningAgent :=
  {| q_table := q_table self;
     agent_epsilon := Qmax (min_epsilon self)
                           (agent_epsilon self * epsilon_decay self);
     epsilon_decay := epsilon_decay self;
     min_epsilon := min_epsilon self;
     total_rewards := total_rewards self;
     episode_count := episode_count self |}.

(** [QLearningAgent.reset] *)
Definition agent_reset (self : QLearningAgent) : QLearningAgent :=
  {| q_table := qtable_reset (q_table self);
     agent_epsilon := (1 # 10)%Q;
     epsilon_decay := epsilon_decay self;
     min_epsilon := min_epsilon self;
     total_rewards := 0%Q;
     episode_count := 0 |}.

(** [sum(len(actions) for actions in self.q_table.table.values())] *)
Definition q_table_size (self : QTable) : nat :=
  map_fold (fun _ (row : gmap string Q) n => (size row + n)%nat) 0%nat (table self).

(** The dictionary returned by [QLearningAgent.get_statistics]. *)
Record Statistics : Type := mkStatistics {
  stat_epsilon : Q;
  stat_total_rewards : Q;
  stat_episode_count : Z;
  stat_q_table_size : nat
}.

(** [QLearningAgent.get_statistics] *)
Definition get_statistics (self : QLearningAgent) : Statistics :=
  {| stat_epsilon := agent_epsilon self;
     stat_total_rewards := total_rewards self;
     stat_episode_count := episode_count self;
     stat_q_table_size := q_table_size (q_table self) |}.

End Policy.

(** ** storage.py: per-action tallies *)

Module PathStatistics.

(** One entry of the [action_stats] dictionary: the action and its
    ["success"] and ["failure"] counters. *)
Record ActionStat : Type := mkStat {
  stat_action : string;
  success_count : Z;
  failure_count : Z
}.

(** The body of the first loop of [_update_statistics] for one step: the
    entry of [action] is created if absent and one of its counters is
    incremented.  The dictionary is a list in insertion order. *)
Fixpoint tally (action_stats : list ActionStat) (action : string) (ok : bool)
    : list ActionStat :=
  match action_stats with
  | [] => [if ok then mkStat action 1 0 else mkStat action 0 1]
  | e :: rest =>
      if String.eqb (stat_action e) action
      then (if ok
            then mkStat (stat_action e) (success_count e + 1) (failure_count e)
            else mkStat (stat_action e) (success_count e) (failure_count e + 1))
           :: rest
      else e :: tally rest action ok
  end.

(** [AttackPathStorage._update_statistics]: the rows
    [(action_type, success_count, failure_count)] inserted into
    [path_statistics] for one path, in insertion order. *)
Definition _update_statistics (attack_path : list Storage.Step) : list ActionStat :=
  fold_left
    (fun action_stats step =>
       tally action_stats
             (default "unknown" (Storage.step_action step))
             (default false (Storage.step_success step)))
    attack_path [].

End PathStatistics.

(** ** ai/knowledge.py: the hint actions and the mock Exploit-DB *)

Module Catalogue.

(** [class Action(str, Enum)] *)
Inductive Action : Set :=
| SQL_INJECTION
| XSS
| PATH_TRAVERSAL
| COMMAND_INJECTION
| AUTHENTICATION_BYPASS
| PRIVILEGE_ESCALATION
| LATERAL_MOVEMENT
| SSRF
| XXE
| DESERIALIZATION.

(** [action.value] *)
Definition value (a : Action) : string :=
  match a with
  | SQL_INJECTION => "sql_injection_attempt"
  | XSS => "xss_attempt"
  | PATH_TRAVERSAL => "path_traversal_attempt"
  | COMMAND_INJECTION => "command_injection_attempt"
  | AUTHENTICATION_BYPASS => "authentication_bypass_attempt"
  | PRIVILEGE_ESCALATION => "privilege_escalation_attempt"
  | LATERAL_MOVEMENT => "lateral_movement_attempt"
  | SSRF => "ssrf_attempt"
  | XXE => "xxe_attempt"
  | DESERIALIZATION => "deserialization_attempt"
  end.

(** An entry of the mock database. *)
Record Exploit : Type := mkExploit {
  ex_exploit_id : string;
  ex_cve : option string;
  ex_description : string;
  ex_action : Action;
  ex_confidence : Q;
  ex_version_pattern : string
}.

(** [ExploitLibrarian._load_mock_exploit_db]: the dictionary in insertion
    order. *)
Definition _load_mock_exploit_db : list (string * list Exploit) :=
  [ ("apache",
     [ mkExploit "50437" (Some "CVE-2021-41773") "Apache 2.4.49 Path Traversal"
                 PATH_TRAVERSAL (95 # 100) "2\.4\.(49|50)";
       mkExploit "50438" (Some "CVE-2021-42013")
                 "Apache 2.4.50 Path Traversal RCE"
                 PATH_TRAVERSAL (95 # 100) "2\.4\.50" ]);
    ("mysql",
     [ mkExploit "23081" (Some "CVE-2012-2122") "MySQL Authentication Bypass"
                 AUTHENTICATION_BYPASS (85 # 100) "5\.(1|5|6|7)";
       mkExploit "17491" (Some "CVE-2010-1850") "MySQL SQL Injection"
                 SQL_INJECTION (80 # 100) "5\.[0-5]" ]);
    ("postgresql",
     [ mkExploit "45517" (Some "CVE-2019-9193") "PostgreSQL COPY Command RCE"
                 COMMAND_INJECTION (90 # 100) "9\.3|10\.[0-1]|11\.[0-1]";
       mkExploit "28545" (Some "CVE-2007-6600") "PostgreSQL SQL Injection"
                 SQL_INJECTION (75 # 100) "8\.[0-2]" ]);
    ("nginx",
     [ mkExploit "37977" (Some "CVE-2013-2028") "Nginx Stack Buffer Overflow"
                 PRIVILEGE_ESCALATION (70 # 100) "1\.[0-3]\.[0-9]" ]);
    ("php",
     [ mkExploit "49933" (Some "CVE-2021-21708") "PHP Deserialization RCE"
                 DESERIALIZATION (85 # 100) "7\.[0-3]|8\.[0-1]";
       mkExploit "31192" (Some "CVE-2012-1823") "PHP CGI Argument Injection"
                 COMMAND_INJECTION (80 # 100) "5\.[3-4]" ]);
    ("redis",
     [ mkExploit "47195" (Some "CVE-2022-0543") "Redis Lua Sandbox Escape RCE"
                 COMMAND_INJECTION (90 # 100) "5\.[0-9]|6\.[0-2]|7\.[0-1]" ]);
    ("elasticsearch",
     [ mkExploit "36337" (Some "CVE-2014-3120")
                 "Elasticsearch Remote Code Execution"
                 COMMAND_INJECTION (95 # 100) "1\.[0-1]\.[0-9]" ]);
    ("ssh",
     [ mkExploit "45210" (Some "CVE-2018-15473") "OpenSSH Username Enumeration"
                 AUTHENTICATION_BYPASS (60 # 100) "7\.[0-7]" ]);
    ("ftp",
     [ mkExploit "17491" (Some "CVE-2015-3306")
                 "ProFTPD Mod_Copy Command Execution"
                 COMMAND_INJECTION (75 # 100) "1\.3\.[0-5]" ]);
    ("http",
     [ mkExploit "generic_001" None
                 "Web applications commonly vulnerable to XSS"
                 XSS (50 # 100) ".*";
       mkExploit "generic_002" None
                 "Web applications commonly vulnerable to SQL Injection"
                 SQL_INJECTION (50 # 100) ".*" ]) ].

(** [needle in hay] for two strings. *)
Fixpoint contains (needle hay : string) : bool :=
  if String.prefix needle hay then true
  else match hay with
       | EmptyString => false
       | String _ rest => contains needle rest
       end.

(** [self.mock_exploit_db.get(key, [])] *)
Definition db_get (key : string) : list Exploit :=
  match List.find (fun kv : string * list Exploit => String.eqb kv.1 key)
                  _load_mock_exploit_db with
  | Some kv => kv.2
  | None => []
  end.

(** The [StrategicHint] built from an entry; the fallback loop of
    [_query_mock_db] passes no [exploit_path]. *)
Definition hint_of (service_name : string) (with_path : bool) (e : Exploit)
    : Knowledge.StrategicHint :=
  Knowledge.mkHint (value (ex_action e)) service_name
                   (Some (ex_exploit_id e)) (ex_description e)
                   (ex_confidence e) (ex_cve e)
                   (if with_path then Some ("exploits/" +:+ ex_exploit_id e)
                    else None).

(** What every hint built from an entry of the mock database satisfies. *)
Definition catalogue_hint (service_name : string) (h : Knowledge.StrategicHint)
    : Prop :=
  Knowledge.service_name h = service_name
  /\ (1 # 2 <= Knowledge.confidence h)%Q
  /\ (Knowledge.confidence h <= 95 # 100)%Q
  /\ is_Some (Knowledge.exploit_id h)
  /\ exists a : Action, Knowledge.action h = value a.

Section MockDb.

(** [str.lower] *)
Variable lower : string -> string.

(** [re.search(pattern, string)] finds a match. *)
Variable re_search : string -> string -> bool.

(** The version test of the inner loop: entries are skipped only when a
    version is given and its pattern finds no match. *)
Definition version_passes (version : option string) (e : Exploit) : bool :=
  if Py.truthy version
  then re_search (ex_version_pattern e) (default "" version)
  else true.

(** [ExploitLibrarian._query_mock_db] *)
Definition _query_mock_db (service_name : string) (version : option string)
    : list Knowledge.StrategicHint :=
  let service_lower := lower service_name in
  let hints :=
    flat_map
      (fun kv : string * list Exploit =>
         if contains kv.1 service_lower || contains service_lower kv.1
         then map (hint_of service_name true)
                  (List.filter (version_passes version) kv.2)
         else [])
      _load_mock_exploit_db in
  match hints with
  | [] =>
      if existsb (fun web => contains web service_lower)
                 ["http"; "https"; "web"; "www"]
      then map (hint_of service_name false) (db_get "http")
      else hints
  | _ :: _ => hints
  end.

End MockDb.

End Catalogue.

(** ** main.py: [run_simulation] *)

Module Simulation.
Import Env AttackEngine Agent Main Policy.

(** The members of [AttackAction] in declaration order. *)
Definition all_actions : list AttackAction :=
  [PUBLIC_ACCESS_ATTEMPT; TOKEN_REUSE_ATTEMPT; PRIVILEGE_ESCALATION_ATTEMPT;
   LATERAL_MOVEMENT_ATTEMPT; SQL_INJECTION_ATTEMPT; XSS_ATTEMPT;
   PATH_TRAVERSAL_ATTEMPT; COMMAND_INJECTION_ATTEMPT;
   AUTHENTICATION_BYPASS_ATTEMPT; SESSION_HIJACK_ATTEMPT].

(** [AttackAction(action_str)]: the member with that value ([None]: the
    [ValueError] of an unknown value). *)
Definition parse_action (action_str : string) : option AttackAction :=
  List.find (fun a => String.eqb (action_value a) action_str) all_actions.

(** A dictionary appended to [attack_path]. *)
Record PathStep : Type := mkPathStep {
  ps_iteration : Z;
  ps_action : string;
  ps_success : bool;
  ps_access_level : string;
  ps_message : string;
  ps_reward : Q;
  ps_discovered_component : option string;
  ps_vulnerability_found : option string;
  ps_blocked : bool;
  ps_hint_available : Z;
  ps_hint_matched : bool;
  ps_strategic_hint : option string
}.

(** The variables of the loop: the two global objects it mutates and its
    three locals. *)
Record LoopState : Type := mkLoop {
  loop_env : EnvironmentState;
  loop_agent : QLearningAgent;
  attack_path : list PathStep;
  successful_attacks : Z;
  failed_attacks : Z
}.

(** The random values one iteration consumes. *)
Record IterationDraws : Type := mkIterationDraws {
  choose_draws : ChoiceDraws;
  attack_draws : Draws
}.

(** How the loop ends: an exception escapes, or the loop is left. *)
Inductive LoopResult : Type :=
| Aborted (error : string)
| Finished (s : LoopState).

(** The rest of the loop body once [AttackAction(action_str)] has given
    [action]: the attack, the reward, the Q-table update, the new entry of
    [attack_path] and the counters. *)
Definition record_step (i : Z) (s : LoopState) (action : AttackAction)
    (action_str : string) (d : Draws) : LoopState :=
  let o := simulation_step (loop_agent s) (loop_env s) action d in
  let result := step_result o in
  let environment := step_env o in
  let step :=
    {| ps_iteration := i + 1;
       ps_action := action_str;
       ps_success := success result;
       ps_access_level := value (new_access_level result);
       ps_message := message result;
       ps_reward := step_reward o;
       ps_discovered_component := discovered_component result;
       ps_vulnerability_found := vulnerability_found result;
       ps_blocked := blocked result;
       ps_hint_available := hint_available environment;
       ps_hint_matched := check_hint_match environment action_str;
       ps_strategic_hint := strategic_hint environment |} in
  {| loop_env := environment;
     loop_agent := step_agent o;
     attack_path := attack_path s ++ [step];
     successful_attacks :=
       if success result then successful_attacks s + 1
       else successful_attacks s;
     failed_attacks :=
       if success result then failed_attacks s
       else failed_attacks s + 1 |}.

(** [for i in range(request.iterations)], one element of [draws] per
    iteration; [i] is the loop index of the first of them. *)
Fixpoint run_iterations (i : Z) (draws : list IterationDraws) (s : LoopState)
    : LoopResult :=
  match draws with
  | [] => Finished s
  | d :: rest =>
      let state_key := value (current_access_level (loop_env s)) in
      let available_actions :=
        get_available_actions (current_access_level (loop_env s)) in
      match choose_action (loop_agent s) state_key
                          (map action_value available_actions)
                          (Some (loop_env s)) (choose_draws d) with
      | Raises error => Aborted error
      | Returns action_str =>
          match parse_action action_str with
          | None => run_iterations (i + 1) rest s
          | Some action =>
              let s' := record_step i s action action_str (attack_draws d) in
              if bool_decide (current_access_level (loop_env s') = ADMIN)
              then Finished s'
              else run_iterations (i + 1) rest s'
          end
      end
  end.

(** An entry recorded while the attacker is blocked. *)
Definition blocked_entry (level : string) (p : PathStep) : Prop :=
  ps_blocked p = true
  /\ ps_success p = false
  /\ ps_message p = "IP address is blocked"
  /\ (ps_reward p <= -10)%Q
  /\ ps_access_level p = level.

(** The global objects of main.py that [run_simulation] uses. *)
Record Globals : Type := mkGlobals {
  environment : EnvironmentState;
  ai_agent : QLearningAgent;
  exploit_librarian : Knowledge.ExploitLibrarian;
  storage : list Storage.PathRow
}.

(** [class SimulationResponse] *)
Record SimulationResponse : Type := mkResponse {
  resp_attack_path : list PathStep;
  resp_final_access_level : string;
  resp_total_iterations : Z;
  resp_successful_attacks : Z;
  resp_failed_attacks : Z;
  resp_discovered_vulnerabilities : list string;
  resp_strategic_hint_used : option string;
  resp_hint_success : bool
}.

(** A step as [save_attack_path] reads it back. *)
Definition stored_step (p : PathStep) : Storage.Step :=
  Storage.mkStep (Some (ps_action p)) (Some (ps_success p)).

Section RunSimulation.

Variable _query_mock_db : string -> option string -> list Knowledge.StrategicHint.
Variable _query_searchsploit :
  nat -> string -> option string -> list Knowledge.StrategicHint.

(** [environment.reset(target_service=..., librarian=exploit_librarian)]:
    the librarian is asked for its best hint when the target service is a
    non-empty string. *)
Definition reset_with_librarian (env : EnvironmentState)
    (lib : Knowledge.ExploitLibrarian) (target_service : option string)
    : EnvironmentState * Knowledge.ExploitLibrarian :=
  if Py.truthy target_service then
    let service_name := default "" target_service in
    let '(hint, lib) :=
      Knowledge.get_best_hint _query_mock_db _query_searchsploit lib
                              service_name None in
    (reset env
           (Some (service_name,
                  option_map (fun h => (Knowledge.action h, Knowledge.confidence h))
                             hint)),
     lib)
  else (reset env None, lib).

(** [run_simulation].  [scan] holds the service names of the scan when the
    request names a target host; one element of [draws] per requested
    iteration. *)
Definition run_simulation (g : Globals) (scan : option (list string))
    (draws : list IterationDraws) : string + (SimulationResponse * Globals) :=
  let '(env, target_service) :=
    match scan with
    | Some names =>
        ({| current_access_level := current_access_level (environment g);
            visited_components := visited_components (environment g);
            blocked_ips := blocked_ips (environment g);
            discovered_services := names;
            discovered_vulnerabilities :=
              discovered_vulnerabilities (environment g);
            iteration_count := iteration_count (environment g);
            strategic_hint := strategic_hint (environment g);
            hint_available := hint_available (environment g);
            hint_service := hint_service (environment g);
            hint_confidence := hint_confidence (environment g);
            hint_followed := hint_followed (environment g);
            hint_success := hint_success (environment g) |},
         head names)
    | None => (environment g, None)
    end in
  let '(env, lib) :=
    reset_with_librarian env (exploit_librarian g) target_service in
  match run_iterations 0 draws (mkLoop env (ai_agent g) [] 0 0) with
  | Aborted error => inl error
  | Finished s =>
      let env := loop_env s in
      let '(_, db) :=
        Storage.save_attack_path (storage g) (map stored_step (attack_path s))
                                 (value (current_access_level env))
                                 (discovered_vulnerabilities env) None in
      inr ({| resp_attack_path := attack_path s;
              resp_final_access_level := value (current_access_level env);
              resp_total_iterations := Z.of_nat (length (attack_path s));
              resp_successful_attacks := successful_attacks s;
              resp_failed_attacks := failed_attacks s;
              resp_discovered_vulnerabilities := discovered_vulnerabilities env;
              resp_strategic_hint_used := strategic_hint env;
              resp_hint_success := hint_success env |},
           mkGlobals env (loop_agent s) lib db)
  end.

End RunSimulation.

End Simulation.

Import Env AttackEngine Agent Main Episode.

(** * Properties *)

(** ** Access levels and available actions *)

Lemma lt_order (a b : AccessLevel) : lt a b = true <-> order a < order b.
Proof. unfold lt. apply Z.ltb_lt. Qed.

Lemma le_order (a b : AccessLevel) : le a b = true <-> order a <= order b.
Proof.
  unfold le, lt. destruct a, b; cbn; split; intros H; try lia; try done.
Qed.

(** The table of [get_available_actions], level by level. *)
Lemma get_available_actions_table :
  get_available_actions NONE
    = [PRIVILEGE_ESCALATION_ATTEMPT; LATERAL_MOVEMENT_ATTEMPT;
       COMMAND_INJECTION_ATTEMPT; PUBLIC_ACCESS_ATTEMPT; SQL_INJECTION_ATTEMPT]
  /\ get_available_actions PUBLIC
    = [TOKEN_REUSE_ATTEMPT; XSS_ATTEMPT; PATH_TRAVERSAL_ATTEMPT;
       PRIVILEGE_ESCALATION_ATTEMPT; LATERAL_MOVEMENT_ATTEMPT;
       COMMAND_INJECTION_ATTEMPT; PUBLIC_ACCESS_ATTEMPT; SQL_INJECTION_ATTEMPT]
  /\ get_available_actions INTERNAL
    = [PRIVILEGE_ESCALATION_ATTEMPT; LATERAL_MOVEMENT_ATTEMPT;
       COMMAND_INJECTION_ATTEMPT; PUBLIC_ACCESS_ATTEMPT; SQL_INJECTION_ATTEMPT]
  /\ get_available_actions ADMIN
    = [PUBLIC_ACCESS_ATTEMPT; SQL_INJECTION_ATTEMPT].
Proof. repeat split; vm_compute; reflexivity. Qed.

(** The two base actions are returned at every level. *)
Lemma base_actions_always_available (l : AccessLevel) :
  PUBLIC_ACCESS_ATTEMPT ∈ get_available_actions l
  /\ SQL_INJECTION_ATTEMPT ∈ get_available_actions l.
Proof.
  destruct (get_available_actions_table) as (Hn & Hp & Hi & Ha).
  destruct l; rewrite ?Hn, ?Hp, ?Hi, ?Ha; split; set_solver.
Qed.

(** C1 (available-actions monotonicity) does not hold of the code.  The
    guards [current_level >= AccessLevel.PUBLIC] and
    [current_level >= AccessLevel.INTERNAL] compare the level strings, so
    PUBLIC is below INTERNAL in the privilege order yet
    [token_reuse_attempt], returned at PUBLIC, is not returned at INTERNAL;
    and [lateral_movement_attempt], returned at NONE, is not returned at
    ADMIN. *)
Theorem get_available_actions_drops_actions :
  le PUBLIC INTERNAL = true
  /\ bool_decide (TOKEN_REUSE_ATTEMPT ∈ get_available_actions PUBLIC) = true
  /\ bool_decide (TOKEN_REUSE_ATTEMPT ∈ get_available_actions INTERNAL) = false
  /\ le NONE ADMIN = true
  /\ bool_decide (LATERAL_MOVEMENT_ATTEMPT ∈ get_available_actions NONE) = true
  /\ bool_decide (LATERAL_MOVEMENT_ATTEMPT ∈ get_available_actions ADMIN) = false.
Proof. repeat split; vm_compute; reflexivity. Qed.

(** ** The attack executor *)

(** Case analysis on the five ways [execute_attack] returns. *)
Ltac execute_attack_cases :=
  unfold execute_attack, escalate_access;
  repeat match goal with
         | |- context [if ?b then _ else _] => destruct b eqn:?
         end; cbn [fst snd].

Lemma escalate_access_level (st : EnvironmentState) (l : AccessLevel) :
  order (current_access_level st)
    <= order (current_access_level (escalate_access st l).2).
Proof.
  unfold escalate_access. destruct (lt _ _) eqn:E; cbn; [|lia].
  apply lt_order in E. lia.
Qed.

Lemma execute_attack_level_le (a : AttackAction) (st : EnvironmentState) (d : Draws) :
  order (current_access_level st)
    <= order (current_access_level (execute_attack a st d).2).
Proof.
  execute_attack_cases; cbn; try lia;
    match goal with
    | H : lt _ _ = true |- _ => apply lt_order in H; lia
    end.
Qed.

Lemma execute_attack_returns_level (a : AttackAction) (st : EnvironmentState)
    (d : Draws) :
  new_access_level (execute_attack a st d).1
  = current_access_level (execute_attack a st d).2.
Proof. execute_attack_cases; reflexivity. Qed.

(** C10 (result/state agreement).  Whatever the action, the state and the
    draws, the [new_access_level] of the result of [execute_attack] is the
    [current_access_level] of the environment when the call returns. *)
Theorem execute_attack_result_level :
  forall (a : AttackAction) (st : EnvironmentState) (d : Draws),
    new_access_level (execute_attack a st d).1
      = current_access_level (execute_attack a st d).2.
Proof. intros a st d. execute_attack_cases; reflexivity. Qed.

(** The same agreement read branch by branch: each kind of return carries
    the level the environment holds at that moment, and on success that is
    the level after [escalate_access]. *)
Lemma execute_attack_branches (a : AttackAction) (st : EnvironmentState) (d : Draws) :
  let r := (execute_attack a st d).1 in
  let st' := (execute_attack a st d).2 in
  new_access_level r = current_access_level st'
  /\ (success r = false -> current_access_level st' = current_access_level st)
  /\ (success r = true ->
      current_access_level st'
        = _calculate_new_access_level a (current_access_level st)).
Proof.
  cbn zeta. split; [apply execute_attack_returns_level|].
  execute_attack_cases; cbn; split; intros; try done.
  - unfold _calculate_new_access_level in *.
    destruct (ACCESS_ESCALATIONS a) as [e|]; [|done].
    destruct (Py.truthy _ && lt _ e) eqn:E; [|done].
    apply andb_true_iff in E as [_ E]. unfold lt in *. lia.
  - unfold _calculate_new_access_level in *.
    destruct (ACCESS_ESCALATIONS a) as [e|]; [|done].
    destruct (Py.truthy _ && lt _ e) eqn:E; [|done].
    apply andb_true_iff in E as [_ E]. unfold lt in *. lia.
Qed.

(** C3 (monotonic escalation).  Along every sequence of [execute_attack]
    calls on one environment, for all actions and draws, each access level
    is at least the one before it in NONE < PUBLIC < INTERNAL < ADMIN. *)
Theorem level_trace_non_decreasing :
  forall (steps : list (AttackAction * Draws)) (st : EnvironmentState),
    Sorted (fun l1 l2 => order l1 <= order l2) (level_trace st steps)
    /\ order (current_access_level st)
         <= order (current_access_level (execute_attacks st steps).2).
Proof.
  induction steps as [|[a d] rest IH]; intros st.
  - cbn. split; [repeat constructor | lia].
  - pose proof (execute_attack_level_le a st d) as Hstep.
    destruct (IH (execute_attack a st d).2) as [Hs Hl].
    split.
    + cbn [level_trace]. constructor; [exact Hs|].
      destruct rest as [|[a' d'] rest']; cbn [level_trace]; constructor; exact Hstep.
    + cbn [execute_attacks].
      destruct (execute_attack a st d) as [r st1]. cbn [snd] in *.
      destruct (execute_attacks st1 rest) as [rs st2]. cbn [snd] in *. lia.
Qed.

(** The intrusion-detection branch puts the attacker in the blocked set. *)
Lemma execute_attack_detected (a : AttackAction) (st : EnvironmentState) (d : Draws) :
  blocked (execute_attack a st d).1 = true ->
  is_blocked (execute_attack a st d).2 attacker_ip = true.
Proof.
  execute_attack_cases; cbn; intros; try done.
  unfold is_blocked, block_ip. cbn. apply bool_decide_eq_true. set_solver.
Qed.

Lemma execute_attack_blocked (a : AttackAction) (st : EnvironmentState) (d : Draws) :
  is_blocked st attacker_ip = true ->
  execute_attack a st d
    = (mkResult false (current_access_level st) "IP address is blocked"
                None None true, st).
Proof. intros H. unfold execute_attack. rewrite H. reflexivity. Qed.

(** C4 (sticky blocking).  Once the attacker identifier is in the blocked
    set, every later [execute_attack], for all actions and draws, returns
    [success = false] and [blocked = true] and leaves the environment as it
    was; [reset] empties the blocked set. *)
Theorem blocked_is_sticky :
  forall (st : EnvironmentState) (steps : list (AttackAction * Draws)),
    is_blocked st attacker_ip = true ->
    Forall (fun r => success r = false /\ blocked r = true)
           (execute_attacks st steps).1
    /\ length (execute_attacks st steps).1 = length steps
    /\ (execute_attacks st steps).2 = st
    /\ (forall target, is_blocked (reset st target) attacker_ip = false).
Proof.
  intros st steps Hb. split; [|split; [|split]].
  - induction steps as [|[a d] rest IH]; cbn; [constructor|].
    rewrite (execute_attack_blocked a st d Hb).
    destruct (execute_attacks st rest) as [rs st2]. cbn in *.
    constructor; [done | exact IH].
  - induction steps as [|[a d] rest IH]; cbn; [done|].
    rewrite (execute_attack_blocked a st d Hb).
    destruct (execute_attacks st rest) as [rs st2]. cbn in *. lia.
  - induction steps as [|[a d] rest IH]; cbn; [done|].
    rewrite (execute_attack_blocked a st d Hb).
    destruct (execute_attacks st rest) as [rs st2]. cbn in *. done.
  - intros [[service [[act conf]|]]|]; reflexivity.
Qed.

Lemma blocked_is_sticky_witness :
  let st := block_ip initial attacker_ip in
  let steps := [(PUBLIC_ACCESS_ATTEMPT, mkDraws (1 # 2) 0 1);
                (LATERAL_MOVEMENT_ATTEMPT, mkDraws 0 (99 # 100) 7)] in
  is_blocked st attacker_ip = true
  /\ Forall (fun r => success r = false /\ blocked r = true)
            (execute_attacks st steps).1
  /\ length (execute_attacks st steps).1 = length steps
  /\ (execute_attacks st steps).2 = st
  /\ (forall target, is_blocked (reset st target) attacker_ip = false).
Proof.
  cbn zeta. split; [vm_compute; reflexivity|].
  apply (blocked_is_sticky (block_ip initial attacker_ip)
           [(PUBLIC_ACCESS_ATTEMPT, mkDraws (1 # 2) 0 1);
            (LATERAL_MOVEMENT_ATTEMPT, mkDraws 0 (99 # 100) 7)]).
  vm_compute; reflexivity.
Defined.

(** What a successful return carries. *)
Lemma execute_attack_success (a : AttackAction) (st : EnvironmentState) (d : Draws) :
  success (execute_attack a st d).1 = true ->
  discovered_component (execute_attack a st d).1
    = Some ("service_" +:+ Py.str_of_int (component_number d))
  /\ vulnerability_found (execute_attack a st d).1 = VULNERABILITIES a
  /\ blocked (execute_attack a st d).1 = false.
Proof.
  unfold execute_attack.
  destruct (is_blocked st attacker_ip); [done|].
  destruct (negb _); [done|].
  destruct (Qlt_le_dec (ids_sample d) _); [done|].
  destruct (Qlt_le_dec (success_sample d) _); [|done].
  unfold escalate_access. destruct (lt _ _); cbn; done.
Qed.

(** [execute_attack] never touches the hint fields. *)
Lemma execute_attack_hint_fields (a : AttackAction) (st : EnvironmentState)
    (d : Draws) :
  strategic_hint (execute_attack a st d).2 = strategic_hint st
  /\ hint_available (execute_attack a st d).2 = hint_available st.
Proof.
  unfold execute_attack.
  destruct (is_blocked st attacker_ip); [done|].
  destruct (negb _); [done|].
  destruct (Qlt_le_dec (ids_sample d) _); [done|].
  destruct (Qlt_le_dec (success_sample d) _); [|done].
  unfold escalate_access. destruct (lt _ _); destruct (Py.truthy _); cbn; done.
Qed.

(** ** Rewards *)

Lemma truthy_service (x : string) : Py.truthy (Some ("service_" +:+ x)) = true.
Proof. reflexivity. Qed.

(** In the loop of [run_simulation] the environment handed to
    [calculate_reward] is the one [execute_attack] has already updated, so
    the level it reads as the old one is the new one: a successful step is
    rewarded 5, plus the discovery terms, plus the hint terms, and nothing
    for the escalation. *)
Lemma simulation_step_success_reward (agent : QLearningAgent)
    (st : EnvironmentState) (a : AttackAction) (d : Draws) :
  let o := simulation_step agent st a d in
  success (step_result o) = true ->
  (step_reward o ==
     5 + 2 + (if Py.truthy (VULNERABILITIES a) then 3 else 0)
       + (if check_hint_match st (action_value a)
          then 100 + (if hint_available st =? 1 then 2 else 0) else 0))%Q.
Proof.
  unfold simulation_step.
  pose proof (execute_attack_returns_level a st d) as Hl.
  pose proof (execute_attack_success a st d) as Hf.
  pose proof (execute_attack_hint_fields a st d) as [Hh Ha].
  destruct (execute_attack a st d) as [r st1]. cbn [fst snd] in *.
  destruct (calculate_reward r st1 (action_value a)) as [rw st2] eqn:Er.
  cbn. intros Hs. destruct (Hf Hs) as (Hc & Hv & Hb).
  revert Er. unfold calculate_reward, check_hint_match.
  rewrite Hs, Hl, Hc, Hv, Hb, Hh, truthy_service, Z.gtb_ltb, Z.ltb_irrefl.
  destruct (Py.truthy (VULNERABILITIES a));
    destruct (negb (Py.truthy (strategic_hint st)));
    [| destruct (bool_decide _) | | destruct (bool_decide _)];
    cbn; rewrite ?Ha; destruct (hint_available st =? 1); cbn;
    intros Er; inversion Er; subst; lra.
Qed.

(** C2 (escalation reward term) does not hold of the code.  From the
    initial environment, [public_access_attempt] with draws that pass the
    detection check and succeed raises the level from NONE (rank 0) to
    PUBLIC (rank 1); the claim asks for 5 + 10 x 1 on top of the discovery
    bonus of 2, that is 17, and the loop computes 7. *)
Theorem simulation_step_escalation_unrewarded :
  let o := simulation_step new_agent initial PUBLIC_ACCESS_ATTEMPT
                           (mkDraws (1 # 2) 0 1) in
  success (step_result o) = true
  /\ access_levels (current_access_level initial) = 0
  /\ access_levels (new_access_level (step_result o)) = 1
  /\ discovered_component (step_result o) = Some "service_1"
  /\ vulnerability_found (step_result o) = None
  /\ blocked (step_result o) = false
  /\ check_hint_match initial "public_access_attempt" = false
  /\ (step_reward o == 7)%Q
  /\ (step_reward o + 10 * inject_Z (1 - 0) == 5 + 10 * inject_Z (1 - 0) + 2)%Q.
Proof. cbn zeta. repeat split; vm_compute; reflexivity. Qed.

(** C5 (hint massive-reward law).  When a hint is present, the action is
    the active (non-empty) strategic hint and the result is a success,
    [calculate_reward] returns the terms it returns for the same result
    without any hint (success base, escalation, discovery bonuses, blocking
    penalty) plus exactly 100 plus the trust bonus 2, and the state it
    leaves has [hint_followed] and [hint_success] set. *)
Theorem hint_followed_massive_reward :
  forall (result : AttackResult) (st : EnvironmentState) (action : string),
    hint_available st = 1 ->
    strategic_hint st = Some action ->
    Py.truthy (strategic_hint st) = true ->
    success result = true ->
    let rank_new := access_levels (new_access_level result) in
    let rank_old := access_levels (current_access_level st) in
    let out := calculate_reward result st action in
    (out.1 == 5
              + (if rank_new >? rank_old then 10 * inject_Z (rank_new - rank_old) else 0)
              + (if Py.truthy (discovered_component result) then 2 else 0)
              + (if Py.truthy (vulnerability_found result) then 3 else 0)
              + 100 + 2
              - (if blocked result then 10 else 0))%Q
    /\ (out.1 == (calculate_reward result (without_hint st) action).1 + 100 + 2)%Q
    /\ hint_followed out.2 = true
    /\ hint_success out.2 = true.
Proof.
  intros result st action Ha Hh Ht Hs. cbn zeta.
  unfold calculate_reward, check_hint_match.
  change (current_access_level (without_hint st)) with (current_access_level st).
  change (strategic_hint (without_hint st)) with (@None string).
  rewrite Hs, Ht, Hh. cbn [negb Py.truthy].
  rewrite bool_decide_eq_true_2 by reflexivity. cbn [andb].
  cbn [current_access_level hint_available mark_hint_followed].
  rewrite Ha. cbn [Z.eqb Pos.eqb negb fst snd].
  destruct (access_levels (new_access_level result) >? _);
    destruct (Py.truthy (discovered_component result));
    destruct (Py.truthy (vulnerability_found result));
    destruct (blocked result); cbn [fst snd hint_followed hint_success];
    repeat split; ring.
Qed.

Lemma hint_followed_massive_reward_witness :
  let st := _query_strategic_hints initial "apache"
              (Some ("path_traversal_attempt", (95 # 100)%Q)) in
  let result := mkResult true PUBLIC "Successfully executed path_traversal_attempt"
                         (Some "service_4") (Some "Path Traversal") false in
  let out := calculate_reward result st "path_traversal_attempt" in
  (out.1 == 5 + 10 * inject_Z (1 - 0) + 2 + 3 + 100 + 2 - 0)%Q
  /\ (out.1 == (calculate_reward result (without_hint st)
                                 "path_traversal_attempt").1 + 100 + 2)%Q
  /\ hint_followed out.2 = true
  /\ hint_success out.2 = true.
Proof.
  exact (hint_followed_massive_reward
           (mkResult true PUBLIC "Successfully executed path_traversal_attempt"
                     (Some "service_4") (Some "Path Traversal") false)
           (_query_strategic_hints initial "apache"
              (Some ("path_traversal_attempt", (95 # 100)%Q)))
           "path_traversal_attempt"
           eq_refl eq_refl eq_refl eq_refl).
Defined.

(** C6 as stated fails: [lateral_movement_attempt] is a key of
    [ACCESS_ESCALATIONS], so [_is_action_applicable] accepts it at NONE; with
    draws that pass the detection check and succeed, the call from the
    unblocked initial environment is a success and raises the level to
    INTERNAL. *)
Lemma lateral_movement_applicable_at_none :
  is_blocked initial attacker_ip = false
  /\ current_access_level initial = NONE
  /\ _is_action_applicable LATERAL_MOVEMENT_ATTEMPT NONE = true
  /\ success (execute_attack LATERAL_MOVEMENT_ATTEMPT initial
                             (mkDraws (1 # 2) 0 1)).1 = true
  /\ message (execute_attack LATERAL_MOVEMENT_ATTEMPT initial
                             (mkDraws (1 # 2) 0 1)).1
     = "Successfully executed lateral_movement_attempt"
  /\ current_access_level (execute_attack LATERAL_MOVEMENT_ATTEMPT initial
                                          (mkDraws (1 # 2) 0 1)).2 = INTERNAL.
Proof. repeat split; vm_compute; reflexivity. Qed.

(** C6, amended.  An action that [_is_action_applicable] rejects at the
    current level (one that is neither in that level's row of
    [SUCCESS_PROBABILITIES] nor a key of [ACCESS_ESCALATIONS]), executed
    while the attacker is not blocked, returns for all draws a failure that
    is not a blocking, with the "not applicable" message, and leaves the
    environment, hence the level, unchanged; when no hint matches the
    action, [calculate_reward] yields -2 if no hint is available and -3 if
    one is. *)
Theorem inapplicable_action_fails :
  forall (a : AttackAction) (st : EnvironmentState) (d : Draws),
    is_blocked st attacker_ip = false ->
    _is_action_applicable a (current_access_level st) = false ->
    check_hint_match st (action_value a) = false ->
    let r := (execute_attack a st d).1 in
    let st' := (execute_attack a st d).2 in
    success r = false
    /\ blocked r = false
    /\ message r = "Action " +:+ action_value a +:+ " not applicable at "
                   +:+ value (current_access_level st) +:+ " level"
    /\ new_access_level r = current_access_level st
    /\ st' = st
    /\ ((calculate_reward r st' (action_value a)).1
        == if hint_available st =? 1 then -3 else -2)%Q.
Proof.
  intros a st d Hb Happ Hm. cbn zeta.
  unfold execute_attack. rewrite Hb, Happ. cbn [negb fst snd].
  repeat split.
  unfold calculate_reward. rewrite Hm. cbn.
  destruct (hint_available st =? 1); cbn; lra.
Qed.

Lemma inapplicable_action_fails_witness :
  let r := (execute_attack XSS_ATTEMPT initial (mkDraws 0 0 1)).1 in
  let st' := (execute_attack XSS_ATTEMPT initial (mkDraws 0 0 1)).2 in
  success r = false
  /\ blocked r = false
  /\ message r = "Action xss_attempt not applicable at none level"
  /\ new_access_level r = NONE
  /\ st' = initial
  /\ ((calculate_reward r st' "xss_attempt").1 == -2)%Q.
Proof.
  exact (inapplicable_action_fails XSS_ATTEMPT initial (mkDraws 0 0 1)
           eq_refl eq_refl eq_refl).
Defined.

(** ** The path store *)

Lemma count_successes_bounds (path : list Storage.Step) :
  0 <= Storage.count_successes path <= Z.of_nat (length path).
Proof.
  unfold Storage.count_successes.
  pose proof (length_filter (fun st => default false (Storage.step_success st) = true)
                            path).
  lia.
Qed.

(** The score computed by the code is the score of the specification, for
    the counts a path can have. *)
Lemma calculate_path_score_spec (l : AccessLevel) (s f v : Z) :
  0 <= s -> 0 <= f ->
  (Storage._calculate_path_score (value l) s f v
   == Storage.spec_path_score l s f v)%Q.
Proof.
  intros Hs Hf.
  unfold Storage._calculate_path_score, Storage.spec_path_score.
  assert (Storage.level_scores (value l) = Qnum (Storage.level_weight l)
          /\ Storage.level_weight l = inject_Z (Storage.level_scores (value l)))
    as [_ ->] by (destruct l; split; reflexivity).
  rewrite inject_Z_mult, inject_Z_plus.
  destruct (s + f >? 0) eqn:Et; destruct (f >? 0) eqn:Ef;
    destruct (Z.eqb_spec (s + f) 0); destruct (Z.eqb_spec f 0); try lia.
  - field. rewrite <- inject_Z_plus. change 0%Q with (inject_Z 0).
    rewrite inject_Z_injective. lia.
  - subst f. field. change 0%Q with (inject_Z 0).
    rewrite inject_Z_injective. lia.
  - subst f. ring.
Qed.


(** ** The hint cache *)

Section CacheProperties.
Import Knowledge.

Variable mock : string -> option string -> list StrategicHint.
Variable tool : nat -> string -> option string -> list StrategicHint.

Local Abbreviation hints_of := (get_strategic_hints mock tool).

(** A call stores what it returns under the key of its arguments. *)
Lemma get_strategic_hints_stores (lib : ExploitLibrarian) (s : string)
    (v : option string) :
  hint_cache (hints_of lib s v).2 !! cache_key s v = Some (hints_of lib s v).1.
Proof.
  unfold get_strategic_hints.
  destruct (hint_cache lib !! cache_key s v) as [h|] eqn:E; cbn; [exact E|].
  destruct (searchsploit_available lib && negb (demo_mode lib)); cbn;
    apply lookup_insert_eq.
Qed.

(** A cached entry answers the call and nothing else happens. *)
Lemma get_strategic_hints_hit (lib : ExploitLibrarian) (s : string)
    (v : option string) (h : list StrategicHint) :
  hint_cache lib !! cache_key s v = Some h -> hints_of lib s v = (h, lib).
Proof. intros E. unfold get_strategic_hints. rewrite E. reflexivity. Qed.

(** No call of [get_strategic_hints] removes or replaces an entry. *)
Lemma get_strategic_hints_keeps (lib : ExploitLibrarian) (s : string)
    (v : option string) (k : string) (h : list StrategicHint) :
  hint_cache lib !! k = Some h -> hint_cache (hints_of lib s v).2 !! k = Some h.
Proof.
  intros E. unfold get_strategic_hints.
  destruct (hint_cache lib !! cache_key s v) as [h'|] eqn:E'; cbn; [exact E|].
  assert (cache_key s v <> k) as Hne by congruence.
  destruct (searchsploit_available lib && negb (demo_mode lib)); cbn;
    rewrite lookup_insert_ne; done.
Qed.

Lemma call_keeps (lib : ExploitLibrarian) (c : Call) (k : string)
    (h : list StrategicHint) :
  is_clear c = false ->
  hint_cache lib !! k = Some h -> hint_cache (call mock tool lib c) !! k = Some h.
Proof.
  intros Hc E. destruct c as [s v|s v|]; cbn in *; [| |done].
  - by apply get_strategic_hints_keeps.
  - unfold get_best_hint.
    pose proof (get_strategic_hints_keeps lib s v k h E) as Hk.
    destruct (hints_of lib s v) as [[|x xs] lib']; exact Hk.
Qed.

Lemma calls_keep (cs : list Call) (lib : ExploitLibrarian) (k : string)
    (h : list StrategicHint) :
  forallb (fun c => negb (is_clear c)) cs = true ->
  hint_cache lib !! k = Some h ->
  hint_cache (calls mock tool lib cs) !! k = Some h.
Proof.
  revert lib. induction cs as [|c cs IH]; intros lib Hcs E; [exact E|].
  cbn in Hcs. apply andb_true_iff in Hcs as [Hc Hcs].
  cbn. apply IH; [exact Hcs|].
  apply call_keeps; [by destruct (is_clear c) | exact E].
Qed.

Lemma get_strategic_hints_queries (lib : ExploitLibrarian) (s : string)
    (v : option string) :
  (length (queries (hints_of lib s v).2) <= length (queries lib) + 1)%nat.
Proof.
  unfold get_strategic_hints.
  destruct (hint_cache lib !! cache_key s v); cbn; [lia|].
  destruct (searchsploit_available lib && negb (demo_mode lib)); cbn;
    rewrite length_app; cbn; lia.
Qed.

End CacheProperties.

(** C8 (cache idempotence).  For every librarian, whichever way the
    catalogue search and the external tool answer, two consecutive
    [get_strategic_hints] calls with the same service name and version
    return the same hints; the second executes no query, so both together
    execute at most one; the entry stays, with the same content, through
    every sequence of later calls that contains no [clear_cache], and
    [clear_cache] removes it. *)
Theorem get_strategic_hints_idempotent :
  forall (mock : string -> option string -> list Knowledge.StrategicHint)
         (tool : nat -> string -> option string -> list Knowledge.StrategicHint)
         (lib : Knowledge.ExploitLibrarian) (s : string) (v : option string),
    let first := Knowledge.get_strategic_hints mock tool lib s v in
    let second := Knowledge.get_strategic_hints mock tool first.2 s v in
    second.1 = first.1
    /\ Knowledge.queries second.2 = Knowledge.queries first.2
    /\ (length (Knowledge.queries second.2)
        <= length (Knowledge.queries lib) + 1)%nat
    /\ (forall cs : list Knowledge.Call,
          forallb (fun c => negb (Knowledge.is_clear c)) cs = true ->
          let later := Knowledge.calls mock tool first.2 cs in
          Knowledge.hint_cache later !! Knowledge.cache_key s v = Some first.1
          /\ Knowledge.get_strategic_hints mock tool later s v = (first.1, later))
    /\ Knowledge.hint_cache (Knowledge.clear_cache first.2)
         !! Knowledge.cache_key s v = None.
Proof.
  intros mock tool lib s v. cbn zeta.
  pose proof (get_strategic_hints_stores mock tool lib s v) as Hst.
  rewrite (get_strategic_hints_hit mock tool _ s v _ Hst). cbn [fst snd].
  split; [reflexivity|]. split; [reflexivity|].
  split; [apply get_strategic_hints_queries|]. split.
  - intros cs Hcs.
    pose proof (calls_keep mock tool cs _ _ _ Hcs Hst) as Hk.
    split; [exact Hk|]. by apply get_strategic_hints_hit.
  - cbn. apply lookup_empty.
Qed.

(** ** The Q-learning update *)

Section Contraction.
Local Open Scope Q_scope.

Variables lr gamma r : Q.
Hypothesis lr_pos : 0 < lr.
Hypothesis lr_le_1 : lr <= 1.

Local Abbreviation relax := (Episode.relax lr gamma r).

Lemma relax_error (q : Q) : relax q - r == (1 - lr) * (q - r).
Proof. unfold Episode.relax. ring. Qed.

Lemma relax_below (q : Q) : q <= r -> q <= relax q /\ relax q <= r.
Proof.
  unfold Episode.relax. intros H.
  assert (0 <= lr * (r - q)) by (apply Qmult_le_0_compat; lra).
  assert (0 <= (1 - lr) * (r - q)) by (apply Qmult_le_0_compat; lra).
  split; lra.
Qed.

Lemma relax_above (q : Q) : r <= q -> r <= relax q /\ relax q <= q.
Proof.
  unfold Episode.relax. intros H.
  assert (0 <= lr * (q - r)) by (apply Qmult_le_0_compat; lra).
  assert (0 <= (1 - lr) * (q - r)) by (apply Qmult_le_0_compat; lra).
  split; lra.
Qed.

Lemma iter_relax_below (x : Q) (n : nat) : x <= r -> Nat.iter n relax x <= r.
Proof.
  intros H. induction n as [|n IH]; cbn; [exact H|].
  apply relax_below, IH.
Qed.

Lemma iter_relax_above (x : Q) (n : nat) : r <= x -> r <= Nat.iter n relax x.
Proof.
  intros H. induction n as [|n IH]; cbn; [exact H|].
  apply relax_above, IH.
Qed.

Lemma relax_abs (q : Q) : Qabs (relax q - r) == (1 - lr) * Qabs (q - r).
Proof.
  rewrite relax_error, Qabs_Qmult, (Qabs_pos (1 - lr)); [reflexivity | lra].
Qed.

(** The distance to [r] after [n] updates, times [1 + n * lr], is at most
    the distance at the start. *)
Lemma iter_relax_bound (x : Q) (n : nat) :
  (1 + inject_Z (Z.of_nat n) * lr) * Qabs (Nat.iter n relax x - r)
    <= Qabs (x - r).
Proof.
  induction n as [|n IH].
  - cbn [Nat.iter Z.of_nat]. change (inject_Z 0) with 0.
    assert ((1 + 0 * lr) * Qabs (x - r) == Qabs (x - r)) as -> by ring.
    apply Qle_refl.
  - change (Nat.iter (S n) relax x) with (relax (Nat.iter n relax x)).
    rewrite relax_abs, Nat2Z.inj_succ.
    unfold Z.succ. rewrite inject_Z_plus. change (inject_Z 1) with 1.
    pose proof (Qabs_nonneg (Nat.iter n relax x - r)) as Habs.
    assert (0 <= inject_Z (Z.of_nat n)) as Hn.
    { change 0 with (inject_Z 0). rewrite <- Zle_Qle. lia. }
    set (k := inject_Z (Z.of_nat n)) in *.
    set (e := Qabs (Nat.iter n relax x - r)) in *.
    assert ((1 + (k + 1) * lr) * ((1 - lr) * e)
            == (1 + k * lr) * e - (k + 1) * (lr * lr) * e) as -> by ring.
    assert (0 <= (k + 1) * (lr * lr) * e).
    { apply Qmult_le_0_compat; [|exact Habs].
      apply Qmult_le_0_compat; [lra|]. apply Qmult_le_0_compat; lra. }
    lra.
Qed.

Lemma iter_relax_converges (x eps : Q) :
  0 < eps ->
  exists N : nat, forall n : nat, (N <= n)%nat -> Qabs (Nat.iter n relax x - r) < eps.
Proof.
  intros Heps.
  assert (0 < lr * eps) as Hle by (apply Qmult_lt_0_compat; assumption).
  destruct (Qarchimedean (Qabs (x - r) / (lr * eps))) as [p Hp].
  exists (Pos.to_nat p). intros n Hn.
  pose proof (iter_relax_bound x n) as Hb.
  pose proof (Qabs_nonneg (Nat.iter n relax x - r)) as Habs.
  set (e := Qabs (Nat.iter n relax x - r)) in *.
  assert (inject_Z (Z.pos p) <= inject_Z (Z.of_nat n)) as Hpn.
  { rewrite <- Zle_Qle. lia. }
  change (Z.pos p # 1) with (inject_Z (Z.pos p)) in Hp.
  set (k := inject_Z (Z.of_nat n)) in *.
  set (P := inject_Z (Z.pos p)) in *.
  assert (Qabs (x - r) < P * (lr * eps)) as Hd.
  { assert (Qabs (x - r) == Qabs (x - r) / (lr * eps) * (lr * eps)) as Hq.
    { field. split; lra. }
    rewrite Hq at 1. apply Qmult_lt_compat_r; [exact Hle | exact Hp]. }
  destruct (Qlt_le_dec e eps) as [Hlt|Hge]; [exact Hlt|exfalso].
  assert (P * (lr * eps) <= k * (lr * eps)) as H1.
  { apply Qmult_le_compat_r; lra. }
  assert (0 <= k) as Hk.
  { unfold P in Hpn. assert (0 < inject_Z (Z.pos p)) by reflexivity. lra. }
  assert ((1 + k * lr) * eps <= (1 + k * lr) * e) as H2.
  { apply Qmult_le_l; [|exact Hge].
    assert (0 <= k * lr) by (apply Qmult_le_0_compat; lra). lra. }
  lra.
Qed.

End Contraction.

Lemma get_q_value_frame (t : QTable) (s a next : string) :
  next <> s ->
  table (get_q_value t s a).2 !! next = table t !! next
  /\ learning_rate (get_q_value t s a).2 = learning_rate t
  /\ discount_factor (get_q_value t s a).2 = discount_factor t.
Proof.
  intros Hne. unfold get_q_value.
  destruct (table t !! s); cbn; [done|].
  by rewrite lookup_insert_ne.
Qed.

Lemma set_q_value_frame (t : QTable) (s a next : string) (v : Q) :
  next <> s ->
  table (set_q_value t s a v) !! next = table t !! next
  /\ learning_rate (set_q_value t s a v) = learning_rate t
  /\ discount_factor (set_q_value t s a v) = discount_factor t.
Proof.
  intros Hne. unfold set_q_value.
  destruct (table t !! s); cbn; rewrite !lookup_insert_ne; done.
Qed.

Lemma q_value_set_q_value (t : QTable) (s a : string) (v : Q) :
  q_value (set_q_value t s a v) s a = v.
Proof.
  unfold q_value, get_q_value, set_q_value.
  destruct (table t !! s); cbn; repeat (rewrite lookup_insert_eq; cbn); done.
Qed.

Lemma max_row_empty : max_row ∅ = 0%Q.
Proof. unfold max_row. by rewrite map_to_list_empty. Qed.

(** An update of [(s, a)] toward a next state without values: the new
    [Q(s, a)] is [relax] of the old one, the next state still has no value
    and the rates are unchanged. *)
Lemma update_q_value_relax (t : QTable) (s a next : string) (r : Q) :
  next <> s ->
  (table t !! next = None \/ table t !! next = Some ∅) ->
  let t' := update_q_value t s a r next None None in
  q_value t' s a
    = Episode.relax (learning_rate t) (discount_factor t) r (q_value t s a)
  /\ (table t' !! next = None \/ table t' !! next = Some ∅)
  /\ learning_rate t' = learning_rate t
  /\ discount_factor t' = discount_factor t.
Proof.
  intros Hne Hnext. cbn zeta.
  destruct (get_q_value_frame t s a next Hne) as (Ht & Hlr & Hg).
  assert (update_q_value t s a r next None None
          = set_q_value (get_q_value t s a).2 s a
              (Episode.relax (learning_rate t) (discount_factor t) r
                             (q_value t s a))) as ->.
  { unfold update_q_value, Episode.relax, Py.float_or, q_value.
    destruct (get_q_value t s a) as [c t1]. cbn [fst snd] in *. rewrite Ht.
    destruct Hnext as [-> | ->]; [done | by rewrite max_row_empty]. }
  rewrite q_value_set_q_value.
  destruct (set_q_value_frame (get_q_value t s a).2 s a next
              (Episode.relax (learning_rate t) (discount_factor t) r
                             (q_value t s a)) Hne) as (Ht' & Hlr' & Hg').
  rewrite Ht', Hlr', Hg', Ht, Hlr, Hg. done.
Qed.

Lemma repeat_update_relax (t : QTable) (s a next : string) (r : Q) (n : nat) :
  next <> s ->
  (table t !! next = None \/ table t !! next = Some ∅) ->
  let t' := repeat_update t s a r next n in
  q_value t' s a
    = Nat.iter n (Episode.relax (learning_rate t) (discount_factor t) r)
               (q_value t s a)
  /\ (table t' !! next = None \/ table t' !! next = Some ∅)
  /\ learning_rate t' = learning_rate t
  /\ discount_factor t' = discount_factor t.
Proof.
  intros Hne Hnext. cbn zeta. induction n as [|n IH]; [done|].
  destruct IH as (Hq & Hn & Hlr & Hg).
  change (repeat_update t s a r next (S n))
    with (update_q_value (repeat_update t s a r next n) s a r next None None).
  destruct (update_q_value_relax (repeat_update t s a r next n) s a next r Hne Hn)
    as (Hq' & Hn' & Hlr' & Hg').
  rewrite Hq', Hq, Hlr, Hg, Hlr', Hg'. done.
Qed.




(** * Further properties of the code *)

(** ** env.py: escalation *)

(** X1.  [escalate_access] reports [True] exactly when the target is above
    the current level, leaves the level at the higher of the two and
    touches no other field; two escalations give the same state in either
    order, and a repeated one reports [False]. *)
Theorem escalate_access_join :
  forall (st : EnvironmentState) (l1 l2 : AccessLevel),
    ((escalate_access st l1).1 = true <-> order (current_access_level st) < order l1)
    /\ order (current_access_level (escalate_access st l1).2)
       = Z.max (order (current_access_level st)) (order l1)
    /\ (escalate_access st l1).2
       = set_level st (current_access_level (escalate_access st l1).2)
    /\ (escalate_access (escalate_access st l1).2 l2).2
       = (escalate_access (escalate_access st l2).2 l1).2
    /\ (escalate_access (escalate_access st l1).2 l1).1 = false.
Proof.
  intros [lvl vc bi ds dv ic sh ha hs hc hf hsu] l1 l2.
  unfold escalate_access, set_level, lt; cbn.
  repeat split; destruct lvl, l1; cbn; try lia; try done;
    destruct l2; cbn; done.
Qed.

(** ** attack_engine.py *)


(** Controlled case analysis on [execute_attack]: one goal per return. *)
Ltac execute_attack_returns a st d :=
  unfold execute_attack;
  destruct (is_blocked st attacker_ip) eqn:?;
  [| destruct (negb (_is_action_applicable a (current_access_level st))) eqn:?;
     [| destruct (Qlt_le_dec (ids_sample d) block_probability);
        [| destruct (Qlt_le_dec (success_sample d)
                       (_get_success_probability a (current_access_level st)));
           [ unfold escalate_access;
             destruct (lt (current_access_level st)
                          (_calculate_new_access_level a (current_access_level st)))
               eqn:?;
             destruct (Py.truthy (VULNERABILITIES a)) eqn:? |]]]];
  cbn [fst snd].

(** X3.  [execute_attack] only ever adds: the blocked set and the set of
    visited components grow, the list of discovered vulnerabilities is
    extended at its end, and the discovered services, the iteration count
    and all hint fields are left as they were. *)
Theorem execute_attack_frame :
  forall (a : AttackAction) (st : EnvironmentState) (d : Draws),
    let st' := (execute_attack a st d).2 in
    blocked_ips st ⊆ blocked_ips st'
    /\ visited_components st ⊆ visited_components st'
    /\ discovered_vulnerabilities st `prefix_of` discovered_vulnerabilities st'
    /\ discovered_services st' = discovered_services st
    /\ iteration_count st' = iteration_count st
    /\ strategic_hint st' = strategic_hint st
    /\ hint_available st' = hint_available st
    /\ hint_service st' = hint_service st
    /\ hint_confidence st' = hint_confidence st
    /\ hint_followed st' = hint_followed st
    /\ hint_success st' = hint_success st.
Proof.
  intros a st d. cbn zeta.
  execute_attack_returns a st d; cbn;
    repeat split; try done; try set_solver; try (by apply prefix_app_r).
Qed.

(** X4.  A failure leaves the environment untouched unless it is the
    detection that blocks the attacker: a result with [success = False] and
    [blocked = False] comes with the very same state, and any failure comes
    with the same state or with that state plus the attacker in the blocked
    set. *)
Theorem execute_attack_failure_state :
  forall (a : AttackAction) (st : EnvironmentState) (d : Draws),
    success (execute_attack a st d).1 = false ->
    (blocked (execute_attack a st d).1 = false -> (execute_attack a st d).2 = st)
    /\ ((execute_attack a st d).2 = st
        \/ (execute_attack a st d).2 = block_ip st attacker_ip)
    /\ discovered_component (execute_attack a st d).1 = None
    /\ vulnerability_found (execute_attack a st d).1 = None.
Proof.
  intros a st d. execute_attack_returns a st d; cbn; intros; try done;
    repeat split; auto; try done.
Qed.

Lemma execute_attack_failure_state_witness :
  success (execute_attack TOKEN_REUSE_ATTEMPT initial
                          (mkDraws (1 # 2) (99 # 100) 3)).1 = false
  /\ (execute_attack TOKEN_REUSE_ATTEMPT initial
                     (mkDraws (1 # 2) (99 # 100) 3)).2 = initial.
Proof.
  split; [vm_compute; reflexivity|].
  apply (execute_attack_failure_state TOKEN_REUSE_ATTEMPT initial
           (mkDraws (1 # 2) (99 # 100) 3)); vm_compute; reflexivity.
Defined.

(** X5.  The level moves only by a successful action onto that action's
    escalation target, which is then strictly above the old level.  Hence
    ADMIN is left by no action, and it is entered only by
    [privilege_escalation_attempt]. *)
Theorem execute_attack_level_change :
  forall (a : AttackAction) (st : EnvironmentState) (d : Draws),
    let r := (execute_attack a st d).1 in
    let st' := (execute_attack a st d).2 in
    (current_access_level st' <> current_access_level st ->
       success r = true
       /\ ACCESS_ESCALATIONS a = Some (current_access_level st')
       /\ order (current_access_level st) < order (current_access_level st'))
    /\ (current_access_level st = ADMIN -> current_access_level st' = ADMIN)
    /\ (current_access_level st <> ADMIN -> current_access_level st' = ADMIN ->
          a = PRIVILEGE_ESCALATION_ATTEMPT).
Proof.
  intros a st d. cbn zeta.
  assert (current_access_level (execute_attack a st d).2
            <> current_access_level st ->
          success (execute_attack a st d).1 = true
          /\ ACCESS_ESCALATIONS a
             = Some (current_access_level (execute_attack a st d).2)
          /\ order (current_access_level st)
             < order (current_access_level (execute_attack a st d).2)) as Hmove.
  { execute_attack_returns a st d; cbn; intros Hd; try done.
    - unfold _calculate_new_access_level in *.
      destruct (ACCESS_ESCALATIONS a) as [e|]; [|done].
      destruct (Py.truthy _ && lt _ e) eqn:E; [|done].
      apply andb_true_iff in E as [_ E]. apply lt_order in E. done.
    - unfold _calculate_new_access_level in *.
      destruct (ACCESS_ESCALATIONS a) as [e|]; [|done].
      destruct (Py.truthy _ && lt _ e) eqn:E; [|done].
      apply andb_true_iff in E as [_ E]. apply lt_order in E. done. }
  split; [exact Hmove|]. split.
  - intros Hadm.
    destruct (decide (current_access_level (execute_attack a st d).2
                      = current_access_level st)) as [->|Hd]; [done|].
    destruct (Hmove Hd) as (_ & _ & Hlt). rewrite Hadm in Hlt.
    destruct (current_access_level (execute_attack a st d).2); cbn in Hlt; lia.
  - intros Hn Hadm.
    assert (current_access_level (execute_attack a st d).2
            <> current_access_level st) as Hd by congruence.
    destruct (Hmove Hd) as (_ & He & _). rewrite Hadm in He.
    destruct a; cbn in He; congruence.
Qed.

(** X6.  A success always reports a component named [service_<n>] from the
    draw and records it as visited; when the action has a vulnerability
    class the result carries it and it is the last entry of the discovered
    vulnerabilities, otherwise that list is unchanged; the level is the
    higher of the old level and the action's escalation target. *)
Theorem execute_attack_success_effects :
  forall (a : AttackAction) (st : EnvironmentState) (d : Draws),
    success (execute_attack a st d).1 = true ->
    let r := (execute_attack a st d).1 in
    let st' := (execute_attack a st d).2 in
    let component := "service_" +:+ Py.str_of_int (component_number d) in
    discovered_component r = Some component
    /\ component ∈ visited_components st'
    /\ vulnerability_found r = VULNERABILITIES a
    /\ discovered_vulnerabilities st'
       = discovered_vulnerabilities st
         ++ match VULNERABILITIES a with Some v => [v] | None => [] end
    /\ order (current_access_level st')
       = Z.max (order (current_access_level st))
               (match ACCESS_ESCALATIONS a with
                | Some target => order target
                | None => 0
                end)
    /\ blocked r = false
    /\ blocked_ips st' = blocked_ips st.
Proof.
  intros a st d. cbn zeta.
  execute_attack_returns a st d; cbn; intros; try done;
    repeat split; try done; try set_solver;
    unfold _calculate_new_access_level, lt in *;
    destruct a; cbn in *; rewrite ?app_nil_r; try done;
    destruct (current_access_level st); cbn in *; try done; lia.
Qed.

Lemma execute_attack_success_effects_witness :
  let d := mkDraws (1 # 2) 0 9 in
  success (execute_attack SQL_INJECTION_ATTEMPT initial d).1 = true
  /\ discovered_component (execute_attack SQL_INJECTION_ATTEMPT initial d).1
     = Some "service_9"
  /\ discovered_vulnerabilities (execute_attack SQL_INJECTION_ATTEMPT initial d).2
     = ["SQL Injection"].
Proof.
  cbn zeta. split; [vm_compute; reflexivity|].
  pose proof (execute_attack_success_effects SQL_INJECTION_ATTEMPT initial
                (mkDraws (1 # 2) 0 9) eq_refl) as (H1 & _ & _ & H4 & _).
  split; [exact H1 | exact H4].
Defined.

(** X7.  The [blocked] flag of a result tells whether the attacker is in the
    blocked set when the call returns: it is set exactly in that case, for
    every action, state and draw. *)
Theorem execute_attack_blocked_flag :
  forall (a : AttackAction) (st : EnvironmentState) (d : Draws),
    blocked (execute_attack a st d).1
    = is_blocked (execute_attack a st d).2 attacker_ip.
Proof.
  intros a st d. execute_attack_returns a st d; cbn; try done;
    unfold is_blocked in *; cbn; symmetry;
    try (apply bool_decide_eq_true; set_solver);
    apply bool_decide_eq_false;
    match goal with
    | H : bool_decide _ = false |- _ => apply bool_decide_eq_false in H
    end; set_solver.
Qed.

(** X8.  Above NONE the base action [sql_injection_attempt] is offered by
    [get_available_actions] and yet refused by [execute_attack]: it has an
    entry at NONE only and no escalation target, so the call fails as not
    applicable and changes nothing. *)
Theorem sql_injection_offered_but_refused :
  forall (st : EnvironmentState) (d : Draws),
    is_blocked st attacker_ip = false ->
    current_access_level st <> NONE ->
    SQL_INJECTION_ATTEMPT ∈ get_available_actions (current_access_level st)
    /\ execute_attack SQL_INJECTION_ATTEMPT st d
       = (mkResult false (current_access_level st)
                   ("Action sql_injection_attempt not applicable at "
                    +:+ value (current_access_level st) +:+ " level")
                   None None false, st).
Proof.
  intros st d Hb Hl. split; [apply base_actions_always_available|].
  unfold execute_attack. rewrite Hb.
  destruct (current_access_level st); done.
Qed.

Lemma sql_injection_offered_but_refused_witness :
  SQL_INJECTION_ATTEMPT ∈ get_available_actions PUBLIC
  /\ execute_attack SQL_INJECTION_ATTEMPT (set_level initial PUBLIC)
                    (mkDraws 1 0 1)
     = (mkResult false PUBLIC
                 "Action sql_injection_attempt not applicable at public level"
                 None None false, set_level initial PUBLIC).
Proof.
  apply (sql_injection_offered_but_refused (set_level initial PUBLIC)
           (mkDraws 1 0 1)); [reflexivity | discriminate].
Defined.

(** X9.  [authentication_bypass_attempt] and [session_hijack_attempt] are
    offered at no level, although [execute_attack] accepts both at every
    level (each has an escalation target). *)
Theorem never_offered_actions :
  forall l : AccessLevel,
    (AUTHENTICATION_BYPASS_ATTEMPT ∉ get_available_actions l)
    /\ (SESSION_HIJACK_ATTEMPT ∉ get_available_actions l)
    /\ _is_action_applicable AUTHENTICATION_BYPASS_ATTEMPT l = true
    /\ _is_action_applicable SESSION_HIJACK_ATTEMPT l = true.
Proof.
  intros l. destruct get_available_actions_table as (Hn & Hp & Hi & Ha).
  split; [|split; [|split]].
  - destruct l; rewrite ?Hn, ?Hp, ?Hi, ?Ha;
      intros H; repeat (apply elem_of_cons in H as [H|H]; [discriminate|]);
      by apply elem_of_nil in H.
  - destruct l; rewrite ?Hn, ?Hp, ?Hi, ?Ha;
      intros H; repeat (apply elem_of_cons in H as [H|H]; [discriminate|]);
      by apply elem_of_nil in H.
  - by destruct l.
  - by destruct l.
Qed.


(** ** ai_agent.py: rewards *)

(** The escalation term of [calculate_reward] is between 0 and 30. *)
Lemma escalation_term_range (new_level current_level : AccessLevel) :
  let term := if access_levels new_level >? access_levels current_level
              then (10 * inject_Z (access_levels new_level
                                   - access_levels current_level))%Q
              else 0%Q in
  (0 <= term)%Q /\ (term <= 30)%Q.
Proof.
  destruct new_level, current_level; vm_compute; split; discriminate.
Qed.

(** X10.  Every reward lies between -13 and 142; a failed attempt never
    earns more than 0, and a success that is not flagged as blocked earns at
    least 5. *)
Theorem calculate_reward_range :
  forall (result : AttackResult) (st : EnvironmentState) (action : string),
    let reward := (calculate_reward result st action).1 in
    (-13 <= reward)%Q /\ (reward <= 142)%Q
    /\ (success result = false -> reward <= 0)%Q
    /\ (success result = true -> blocked result = false -> 5 <= reward)%Q.
Proof.
  intros [s nl msg dc vf b] st action. cbn zeta.
  unfold calculate_reward. cbn [success new_access_level discovered_component
                                vulnerability_found blocked].
  pose proof (escalation_term_range nl (current_access_level st)) as Hesc.
  cbn zeta in Hesc. destruct Hesc as [Hesc0 Hesc30].
  destruct (access_levels nl >? access_levels (current_access_level st));
    set (esc := (10 * inject_Z (access_levels nl
                                - access_levels (current_access_level st)))%Q)
      in *; clearbody esc;
    destruct (check_hint_match st action);
    destruct s; destruct b;
    destruct (Py.truthy dc); destruct (Py.truthy vf);
    cbn [andb negb fst snd hint_available mark_hint_followed];
    destruct (hint_available st =? 1) eqn:Ha;
    cbn [andb negb fst snd hint_available mark_hint_followed];
    rewrite ?Ha; cbn [andb negb fst snd];
    (repeat split; intros; try discriminate; lra).
Qed.

(** The state [calculate_reward] returns. *)
Lemma calculate_reward_snd (result : AttackResult) (st : EnvironmentState)
    (action : string) :
  (calculate_reward result st action).2
  = if check_hint_match st action
       && (success result || (hint_available st =? 1))
    then mark_hint_followed st (success result)
    else st.
Proof.
  unfold calculate_reward.
  destruct (check_hint_match st action); destruct (success result);
    cbn [andb orb negb fst snd hint_available mark_hint_followed];
    destruct (hint_available st =? 1) eqn:Ha;
    cbn [andb orb negb fst snd hint_available mark_hint_followed];
    rewrite ?Ha; reflexivity.
Qed.

(** The reward does not depend on the two hint flags. *)
Lemma calculate_reward_fst_mark (result : AttackResult) (st : EnvironmentState)
    (action : string) (b : bool) :
  (calculate_reward result (mark_hint_followed st b) action).1
  = (calculate_reward result st action).1.
Proof.
  unfold calculate_reward, check_hint_match.
  cbn [strategic_hint hint_available current_access_level mark_hint_followed].
  destruct (if negb (Py.truthy (strategic_hint st)) then false
            else bool_decide (Some action = strategic_hint st));
    destruct (success result);
    cbn [andb orb negb fst snd hint_available mark_hint_followed];
    destruct (hint_available st =? 1) eqn:Ha;
    cbn [andb orb negb fst snd hint_available mark_hint_followed];
    rewrite ?Ha; reflexivity.
Qed.

(** X11.  [calculate_reward] writes nothing but the two hint flags, and only
    when the action matches the hint: otherwise the state is returned as it
    was; when it does write, [hint_followed] is set and [hint_success] is the
    success of the result.  Computing the reward again on the returned
    state gives the same reward and the same state. *)
Theorem calculate_reward_state :
  forall (result : AttackResult) (st : EnvironmentState) (action : string),
    let st' := (calculate_reward result st action).2 in
    (st' = st \/ st' = mark_hint_followed st (success result))
    /\ (check_hint_match st action = false -> st' = st)
    /\ (check_hint_match st action = true ->
        success result = true \/ hint_available st = 1 ->
        st' = mark_hint_followed st (success result))
    /\ calculate_reward result st' action = calculate_reward result st action.
Proof.
  intros result st action. cbn zeta.
  rewrite calculate_reward_snd.
  split; [|split; [|split]].
  - destruct (_ && _); auto.
  - intros ->. reflexivity.
  - intros -> [-> | ->]; cbn; [reflexivity|].
    by rewrite orb_true_r.
  - destruct (check_hint_match st action && _) eqn:E; [|reflexivity].
    apply injective_projections.
    + apply calculate_reward_fst_mark.
    + rewrite !calculate_reward_snd.
      change (check_hint_match (mark_hint_followed st (success result)) action)
        with (check_hint_match st action).
      change (hint_available (mark_hint_followed st (success result)))
        with (hint_available st).
      rewrite E. reflexivity.
Qed.

(** ** ai_agent.py: the Q-table *)

(** [Q(s, a)] read off the table: 0 unless the row of [s] has [a]. *)
Lemma q_value_lookup (t : QTable) (s a : string) :
  q_value t s a = default 0%Q (default ∅ (table t !! s) !! a).
Proof.
  unfold q_value, get_q_value.
  destruct (table t !! s) as [row|] eqn:Es; cbn; [by rewrite Es|].
  by rewrite lookup_insert_eq.
Qed.

Lemma table_set_q_value (t : QTable) (s a : string) (v : Q) :
  table (set_q_value t s a v)
  = <[s := <[a := v]> (default ∅ (table t !! s))]> (table t).
Proof.
  unfold set_q_value.
  destruct (table t !! s) as [row|] eqn:Es; cbn; [by rewrite Es|].
  rewrite lookup_insert_eq. cbn. by rewrite insert_insert_eq.
Qed.

Lemma row_get_q_value (t : QTable) (s a s' : string) :
  default ∅ (table (get_q_value t s a).2 !! s') = default ∅ (table t !! s').
Proof.
  unfold get_q_value.
  destruct (table t !! s) as [row|] eqn:Es; cbn; [done|].
  destruct (decide (s' = s)) as [->|Hs].
  - by rewrite lookup_insert_eq, Es.
  - by rewrite lookup_insert_ne.
Qed.

Lemma q_value_set_q_value_other (t : QTable) (s a s' a' : string) (v : Q) :
  (s', a') <> (s, a) -> q_value (set_q_value t s a v) s' a' = q_value t s' a'.
Proof.
  intros Hne. rewrite !q_value_lookup, table_set_q_value.
  destruct (decide (s' = s)) as [->|Hs].
  - assert (a <> a') as Ha by congruence.
    rewrite lookup_insert_eq. cbn. by rewrite lookup_insert_ne.
  - by rewrite lookup_insert_ne.
Qed.

Lemma q_value_get_q_value (t : QTable) (s a s' a' : string) :
  q_value (get_q_value t s a).2 s' a' = q_value t s' a'.
Proof. by rewrite !q_value_lookup, row_get_q_value. Qed.

(** X12.  The Q-table behaves as a total map with default 0: a pair never
    written reads 0; [set_q_value] makes its pair read the value written
    and changes the reading of no other pair; the row [get_q_value] stores
    for an unseen state changes no reading at all. *)
Theorem q_table_read_write :
  forall (t : QTable) (s a s' a' : string) (v : Q),
    q_value (mkQTable ∅ (learning_rate t) (discount_factor t) (epsilon t)) s a
    = 0%Q
    /\ q_value (set_q_value t s a v) s a = v
    /\ ((s', a') <> (s, a) ->
        q_value (set_q_value t s a v) s' a' = q_value t s' a')
    /\ q_value (get_q_value t s a).2 s' a' = q_value t s' a'.
Proof.
  intros t s a s' a' v. split; [|split; [|split]].
  - rewrite q_value_lookup. cbn. by rewrite !lookup_empty.
  - apply q_value_set_q_value.
  - apply q_value_set_q_value_other.
  - apply q_value_get_q_value.
Qed.

Lemma py_max_spec (x : Q) (xs : list Q) :
  py_max x xs ∈ x :: xs /\ Forall (fun y => (y <= py_max x xs)%Q) (x :: xs).
Proof.
  unfold py_max. revert x. induction xs as [|y ys IH]; intros x; cbn.
  - split; [apply elem_of_cons; by left|].
    constructor; [apply Qle_refl | constructor].
  - destruct (Qlt_le_dec x y) as [Hlt|Hle].
    + destruct (IH y) as [Hin Hall]. split; [by apply elem_of_cons; right|].
      inversion Hall as [|? ? Hy Hys]; subst.
      constructor; [|by constructor].
      eapply Qle_trans; [apply Qlt_le_weak, Hlt | exact Hy].
    + destruct (IH x) as [Hin Hall]. split.
      { apply elem_of_cons in Hin as [Hin|Hin].
        - apply elem_of_cons. by left.
        - apply elem_of_cons. right. apply elem_of_cons. by right. }
      inversion Hall as [|? ? Hx Hys]; subst.
      constructor; [exact Hx|]. constructor; [|exact Hys].
      eapply Qle_trans; [exact Hle | exact Hx].
Qed.

(** X13.  [max_row], the [max] over the values of a row: 0 for an empty
    row; for any other row a value that some action of the row carries and
    that no value of the row exceeds. *)
Theorem max_row_greatest :
  forall row : gmap string Q,
    (row = ∅ -> max_row row = 0%Q)
    /\ (row <> ∅ -> exists a : string, row !! a = Some (max_row row))
    /\ (forall (a : string) (v : Q), row !! a = Some v -> (v <= max_row row)%Q).
Proof.
  intros row. unfold max_row.
  destruct (map_to_list row) as [|[k x] kvs] eqn:El.
  - apply map_to_list_empty_iff in El. subst. cbn.
    split; [done|]. split; [done|]. intros a v H. by rewrite lookup_empty in H.
  - cbn [fmap list_fmap snd].
    change (list_fmap _ _ snd kvs) with (kvs.*2).
    destruct (py_max_spec x (kvs.*2)) as [Hin Hall].
    split; [|split].
    + intros ->. by rewrite map_to_list_empty in El.
    + intros _.
      assert (py_max x (kvs.*2) ∈ (map_to_list row).*2) as Hin'
        by (rewrite El; exact Hin).
      apply list_elem_of_fmap in Hin' as [[a v] [Hv Ha]]. cbn in Hv.
      apply elem_of_map_to_list in Ha. exists a. by rewrite Hv.
    + intros a v Hav. apply elem_of_map_to_list in Hav.
      rewrite El in Hav.
      assert (v ∈ x :: kvs.*2) as Hv.
      { change (x :: kvs.*2) with (((k, x) :: kvs).*2).
        apply list_elem_of_fmap. by exists (a, v). }
      rewrite Forall_forall in Hall. by apply Hall.
Qed.

(** X14.  [update_q_value] for any next state and any rate arguments: the
    pair [(s, a)] moves to [q + lr * (r + gamma * m - q)], where [m] is the
    greatest value of the next state's row in the table before the call (0
    when there is none) and [lr], [gamma] are the arguments unless they are
    absent or zero, in which case the table's own rates are used; no other
    pair changes. *)
Theorem update_q_value_effect :
  forall (t : QTable) (s a next : string) (r : Q) (lr_arg gamma_arg : option Q)
         (s' a' : string),
    let t' := update_q_value t s a r next lr_arg gamma_arg in
    let lr := Py.float_or lr_arg (learning_rate t) in
    let gamma := Py.float_or gamma_arg (discount_factor t) in
    let m := max_row (default ∅ (table t !! next)) in
    q_value t' s a
    = (q_value t s a + lr * (r + gamma * m - q_value t s a))%Q
    /\ ((s', a') <> (s, a) -> q_value t' s' a' = q_value t s' a')
    /\ update_q_value t s a r next (Some 0%Q) gamma_arg
       = update_q_value t s a r next None gamma_arg.
Proof.
  intros t s a next r lr_arg gamma_arg s' a'. cbn zeta.
  assert (update_q_value t s a r next lr_arg gamma_arg
          = set_q_value (get_q_value t s a).2 s a
              (q_value t s a
               + Py.float_or lr_arg (learning_rate t)
                 * (r + Py.float_or gamma_arg (discount_factor t)
                        * max_row (default ∅ (table t !! next))
                    - q_value t s a))%Q) as ->.
  { unfold update_q_value, q_value.
    assert (match table (get_q_value t s a).2 !! next with
            | Some row => max_row row
            | None => 0%Q
            end = max_row (default ∅ (table t !! next))) as Hm.
    { unfold get_q_value. destruct (table t !! s) as [row|] eqn:Es; cbn.
      - destruct (table t !! next); cbn; [done | by rewrite max_row_empty].
      - destruct (decide (next = s)) as [->|Hn].
        + rewrite lookup_insert_eq, Es. done.
        + rewrite lookup_insert_ne by done.
          destruct (table t !! next); cbn; [done | by rewrite max_row_empty]. }
    destruct (get_q_value t s a) as [c t1]. cbn [fst snd] in *.
    by rewrite Hm. }
  split; [apply q_value_set_q_value|]. split; [|reflexivity].
  intros Hne. rewrite q_value_set_q_value_other by done.
  apply q_value_get_q_value.
Qed.

(** ** ai_agent.py: choosing the action *)

Import Policy.

Lemma choice_elem (seq : list string) (pick : nat) :
  seq <> [] -> exists a : string, choice seq pick = Some a /\ a ∈ seq.
Proof.
  intros Hne. unfold choice.
  assert (pick `mod` length seq < length seq)%nat as Hlt.
  { apply Nat.mod_upper_bound. destruct seq; [done | cbn; lia]. }
  destruct (lookup_lt_is_Some_2 seq _ Hlt) as [a Ha].
  exists a. split; [exact Ha|]. by eapply list_elem_of_lookup_2.
Qed.

(** The scan keeps the first action of greatest value among those seen. *)
Lemma best_scan_invariant (t : QTable) (s : string) (todo seen : list string)
    (acc : option string * option Q) :
  (seen = [] /\ acc = (None, None)
   \/ exists b, acc = (Some b, Some (q_value t s b)) /\ b ∈ seen
                /\ Forall (fun a => (q_value t s a <= q_value t s b)%Q) seen) ->
  let out :=
    fold_left
      (fun '(best_action, best_value) action =>
         let q := (get_q_value t s action).1 in
         if exceeds q best_value then (Some action, Some q)
         else (best_action, best_value))
      todo acc in
  (seen ++ todo = [] /\ out = (None, None))
  \/ exists b, out = (Some b, Some (q_value t s b)) /\ b ∈ seen ++ todo
               /\ Forall (fun a => (q_value t s a <= q_value t s b)%Q)
                         (seen ++ todo).
Proof.
  revert seen acc. induction todo as [|x todo IH]; intros seen acc Hinv;
    cbn [fold_left].
  - rewrite app_nil_r. exact Hinv.
  - replace (seen ++ x :: todo) with ((seen ++ [x]) ++ todo)
      by (by rewrite <- app_assoc).
    apply IH. right.
    destruct Hinv as [[-> ->] | (b & -> & Hb & Hall)]; cbv beta iota zeta;
      cbn [exceeds app]; change ((get_q_value t s x).1) with (q_value t s x).
    + exists x. split; [reflexivity|]. split; [apply elem_of_cons; by left|].
      constructor; [apply Qle_refl | constructor].
    + destruct (Qlt_le_dec (q_value t s b) (q_value t s x)) as [Hlt|Hle].
      * exists x. split; [reflexivity|].
        split; [apply elem_of_app; right; apply elem_of_cons; by left|].
        apply Forall_app. split.
        -- eapply Forall_impl; [exact Hall|]. cbn. intros a Ha.
           eapply Qle_trans; [exact Ha | by apply Qlt_le_weak].
        -- constructor; [apply Qle_refl | constructor].
      * exists b. split; [reflexivity|].
        split; [apply elem_of_app; by left|].
        apply Forall_app. split; [exact Hall|].
        constructor; [exact Hle | constructor].
Qed.

Lemma best_scan_spec (t : QTable) (s : string) (available : list string) :
  available <> [] ->
  exists b, best_scan t s available = (Some b, Some (q_value t s b))
            /\ b ∈ available
            /\ Forall (fun a => (q_value t s a <= q_value t s b)%Q) available.
Proof.
  intros Hne.
  destruct (best_scan_invariant t s available [] (None, None)) as [[H _]|H];
    [by left | done | exact H].
Qed.

Lemma get_best_action_members (t : QTable) (s : string)
    (available : list string) (pick : nat) :
  available <> [] ->
  exists b, get_best_action t s available pick = Some b /\ b ∈ available.
Proof.
  intros Hne. unfold get_best_action.
  destruct available as [|x xs] eqn:Eav; [done|]. rewrite <- Eav in *.
  assert (available <> []) as Hne' by (by rewrite Eav).
  destruct (choice_elem available pick Hne') as (c & Hc & Hin).
  destruct (table t !! s) as [row|]; [|by exists c].
  destruct (size row =? 0)%nat; [by exists c|].
  destruct (best_scan_spec t s available Hne') as (b & Hb & Hbin & _).
  rewrite Hb. cbn [fst].
  destruct (Py.truthy (Some b)); [by exists b | by exists c].
Qed.

(** X15.  [get_best_action] returns [None] exactly for an empty list of
    actions, and otherwise always one of the listed actions.  When the
    state has a non-empty row and no listed action is the empty string, the
    action returned has a Q-value that none of the listed actions exceeds,
    whatever the random pick. *)
Theorem get_best_action_greedy :
  forall (t : QTable) (s : string) (available : list string) (pick : nat),
    (available = [] <-> get_best_action t s available pick = None)
    /\ (available <> [] ->
        exists b, get_best_action t s available pick = Some b /\ b ∈ available)
    /\ (available <> [] -> "" ∉ available ->
        (exists row, table t !! s = Some row /\ row <> ∅) ->
        exists b, get_best_action t s available pick = Some b
                  /\ b ∈ available
                  /\ Forall (fun a => (q_value t s a <= q_value t s b)%Q)
                            available
                  /\ forall pick', get_best_action t s available pick'
                                   = Some b).
Proof.
  intros t s available pick.
  assert (forall p, available <> [] ->
            exists b, get_best_action t s available p = Some b
                      /\ b ∈ available) as Hmem
    by (intros p; apply get_best_action_members).
  split; [|split].
  - split; [by intros ->|]. intros Hnone.
    destruct available as [|x xs]; [done|].
    destruct (Hmem pick) as (b & Hb & _); [done|]. congruence.
  - apply Hmem.
  - intros Hne Hempty (row & Hrow & Hrne).
    destruct (best_scan_spec t s available Hne) as (b & Hb & Hbin & Hall).
    assert (forall p, get_best_action t s available p = Some b) as Hall_p.
    { intros p. unfold get_best_action.
      destruct available as [|x xs] eqn:Eav; [done|]. rewrite <- Eav in *.
      rewrite Hrow.
      assert ((size row =? 0)%nat = false) as ->.
      { apply Nat.eqb_neq. intros Hz. by apply map_size_empty_iff in Hz. }
      rewrite Hb. cbn [fst].
      assert (Py.truthy (Some b) = true) as ->; [|done].
      cbn. apply negb_true_iff, String.eqb_neq. intros ->. done. }
    exists b. by rewrite Hall_p.
Qed.

Lemma choose_action_member (agent : QLearningAgent) (s : string)
    (available : list string) (env : option EnvironmentState)
    (d : ChoiceDraws) :
  available <> [] ->
  exists a, choose_action agent s available env d = Returns a /\ a ∈ available.
Proof.
  intros Hne.
  unfold choose_action.
  destruct available as [|x xs] eqn:Eav; [done|]. rewrite <- Eav in *.
  assert (available <> []) as Hne' by (by rewrite Eav).
  assert (forall p, exists a, of_choice (choice available p) = Returns a
                              /\ a ∈ available) as Hchoice.
  { intros p. destruct (choice_elem available p Hne') as (c & -> & Hc).
    by exists c. }
  assert (exists a, (if Qlt_le_dec (explore_sample d) (agent_epsilon agent)
                     then of_choice (choice available (explore_pick d))
                     else
                       if Py.truthy (get_best_action (q_table agent) s available
                                                     (best_pick d))
                       then of_choice (get_best_action (q_table agent) s
                                                       available (best_pick d))
                       else of_choice (choice available (fallback_pick d)))
                    = Returns a /\ a ∈ available) as Hrest.
  { destruct (Qlt_le_dec _ _); [apply Hchoice|].
    destruct (get_best_action_members (q_table agent) s available (best_pick d)
                Hne') as (b & -> & Hb).
    destruct (Py.truthy (Some b)); [by exists b | apply Hchoice]. }
  destruct env as [e|]; [|exact Hrest].
  destruct (hint_available e =? 1); [|exact Hrest].
  destruct (Py.truthy (strategic_hint e)
            && bool_decide (default "" (strategic_hint e) ∈ available)) eqn:Eh;
    [|exact Hrest].
  destruct (Qlt_le_dec (hint_sample d) (8 # 10)); [|exact Hrest].
  apply andb_true_iff in Eh as [Ht Hin]. apply bool_decide_eq_true in Hin.
  destruct (strategic_hint e) as [h|]; [|done]. by exists h.
Qed.


(** X16.  [choose_action] raises [ValueError] exactly when no action is
    available; otherwise, for every agent, state key, environment and
    draws, it returns one of the available actions. *)
Theorem choose_action_available :
  forall (agent : QLearningAgent) (s : string) (available : list string)
         (env : option EnvironmentState) (d : ChoiceDraws),
    (available = [] -> choose_action agent s available env d = Raises "ValueError")
    /\ (available <> [] ->
        exists a, choose_action agent s available env d = Returns a
                  /\ a ∈ available).
Proof.
  intros agent s available env d. split; [by intros ->|].
  apply choose_action_member.
Qed.

(** X17.  Hint priority: when the environment carries a hint
    ([hint_available = 1]) whose action is non-empty and among the available
    actions, and the first random sample is below 0.8, [choose_action]
    returns the hinted action, whatever the Q-table, the exploration rate
    and the other draws. *)
Theorem choose_action_follows_hint :
  forall (agent : QLearningAgent) (s : string) (available : list string)
         (env : EnvironmentState) (d : ChoiceDraws) (hint : string),
    hint_available env = 1 ->
    strategic_hint env = Some hint ->
    hint <> "" ->
    hint ∈ available ->
    (hint_sample d < 8 # 10)%Q ->
    choose_action agent s available (Some env) d = Returns hint.
Proof.
  intros agent s available env d hint Ha Hh Hne Hin Hs.
  unfold choose_action.
  destruct available as [|x xs] eqn:Eav; [by apply elem_of_nil in Hin|].
  rewrite <- Eav in *. rewrite Ha, Hh. cbn [Z.eqb Pos.eqb default Py.truthy].
  assert (negb (hint =? "")%string = true) as ->
    by (by apply negb_true_iff, String.eqb_neq).
  rewrite bool_decide_eq_true_2 by done. cbn [andb].
  destruct (Qlt_le_dec (hint_sample d) (8 # 10)) as [_|Hge]; [done|].
  exfalso. apply (Qlt_irrefl (hint_sample d)). eapply Qlt_le_trans; eauto.
Qed.

Lemma choose_action_follows_hint_witness :
  choose_action new_agent "none"
                ["public_access_attempt"; "sql_injection_attempt";
                 "path_traversal_attempt"]
                (Some (_query_strategic_hints initial "apache"
                         (Some ("path_traversal_attempt", (95 # 100)%Q))))
                (mkChoiceDraws (1 # 2) 0 0 0 0)
  = Returns "path_traversal_attempt".
Proof.
  apply (choose_action_follows_hint new_agent "none"
           ["public_access_attempt"; "sql_injection_attempt";
            "path_traversal_attempt"]
           (_query_strategic_hints initial "apache"
              (Some ("path_traversal_attempt", (95 # 100)%Q)))
           (mkChoiceDraws (1 # 2) 0 0 0 0) "path_traversal_attempt").
  - reflexivity.
  - reflexivity.
  - discriminate.
  - apply elem_of_cons. right. apply elem_of_cons. right.
    apply elem_of_cons. by left.
  - reflexivity.
Defined.

(** ** ai_agent.py: the exploration rate *)

Lemma decay_epsilon_iter_params (agent : QLearningAgent) (n : nat) :
  min_epsilon (Nat.iter n decay_epsilon agent) = min_epsilon agent
  /\ epsilon_decay (Nat.iter n decay_epsilon agent) = epsilon_decay agent
  /\ q_table (Nat.iter n decay_epsilon agent) = q_table agent.
Proof.
  induction n as [|n IH]; [done|].
  change (Nat.iter (S n) decay_epsilon agent)
    with (decay_epsilon (Nat.iter n decay_epsilon agent)).
  unfold decay_epsilon at 1 3 5. cbn. exact IH.
Qed.



(** ** storage.py: tallies and score *)

Import PathStatistics.

Lemma tally_keys (stats : list ActionStat) (a : string) (ok : bool) (k : string) :
  k ∈ stat_action <$> tally stats a ok <-> k = a \/ k ∈ stat_action <$> stats.
Proof.
  induction stats as [|e rest IH]; cbn.
  - destruct ok; cbn; rewrite elem_of_cons, elem_of_nil; tauto.
  - destruct (String.eqb_spec (stat_action e) a) as [<-|Hne].
    + destruct ok; cbn; rewrite !elem_of_cons; tauto.
    + cbn. rewrite !elem_of_cons, IH. tauto.
Qed.

Lemma tally_NoDup (stats : list ActionStat) (a : string) (ok : bool) :
  NoDup (stat_action <$> stats) -> NoDup (stat_action <$> tally stats a ok).
Proof.
  induction stats as [|e rest IH]; cbn; intros Hnd.
  - destruct ok; cbn; apply NoDup_singleton.
  - apply NoDup_cons in Hnd as [Hnotin Hnd].
    destruct (String.eqb_spec (stat_action e) a) as [<-|Hne].
    + destruct ok; cbn; apply NoDup_cons; done.
    + cbn. apply NoDup_cons. split; [|by apply IH].
      rewrite tally_keys. intros [?|?]; done.
Qed.

Lemma tally_sums (stats : list ActionStat) (a : string) (ok : bool) :
  foldr Z.add 0 (success_count <$> tally stats a ok)
  = foldr Z.add 0 (success_count <$> stats) + (if ok then 1 else 0)
  /\ foldr Z.add 0 (failure_count <$> tally stats a ok)
     = foldr Z.add 0 (failure_count <$> stats) + (if ok then 0 else 1).
Proof.
  induction stats as [|e rest [IHs IHf]]; cbn.
  - destruct ok; cbn; lia.
  - destruct (String.eqb (stat_action e) a); [destruct ok; cbn; lia|].
    cbn. rewrite IHs, IHf. lia.
Qed.

Lemma tally_positive (stats : list ActionStat) (a : string) (ok : bool) :
  Forall (fun e => 0 <= success_count e /\ 0 <= failure_count e
                   /\ 1 <= success_count e + failure_count e) stats ->
  Forall (fun e => 0 <= success_count e /\ 0 <= failure_count e
                   /\ 1 <= success_count e + failure_count e)
         (tally stats a ok).
Proof.
  induction stats as [|e rest IH]; cbn; intros Hall.
  - destruct ok; repeat constructor; cbn; lia.
  - inversion Hall as [|? ? He Hrest]; subst.
    destruct (String.eqb (stat_action e) a).
    + destruct ok; constructor; cbn; try lia; done.
    + constructor; [done | by apply IH].
Qed.

Lemma count_successes_cons (step : Storage.Step) (path : list Storage.Step) :
  Storage.count_successes (step :: path)
  = (if default false (Storage.step_success step) then 1 else 0)
    + Storage.count_successes path.
Proof.
  unfold Storage.count_successes. rewrite filter_cons.
  destruct (decide _) as [H|H].
  - rewrite H. cbn [length]. lia.
  - destruct (default false (Storage.step_success step)); [done | lia].
Qed.

(** X19.  The per-action tallies written for a path have one row per
    distinct action of the path (a step without an action counts under
    ["unknown"]), every row counts at least one step and no negative
    number, and over the rows the success counts add up to the path's
    number of successes and the failure counts to its number of failures:
    the very numbers [save_attack_path] stores in the path's own row. *)
Theorem update_statistics_totals :
  forall (db : list Storage.PathRow) (path : list Storage.Step)
         (final_level : string) (vulns : list string) (score_arg : option Q),
    let rows := _update_statistics path in
    NoDup (stat_action <$> rows)
    /\ (forall k : string,
          k ∈ stat_action <$> rows
          <-> exists step, step ∈ path
                           /\ default "unknown" (Storage.step_action step) = k)
    /\ Forall (fun e => 0 <= success_count e /\ 0 <= failure_count e
                        /\ 1 <= success_count e + failure_count e) rows
    /\ exists row,
         last (Storage.save_attack_path db path final_level vulns score_arg).2
         = Some row
         /\ foldr Z.add 0 (success_count <$> rows) = Storage.successful_attacks row
         /\ foldr Z.add 0 (failure_count <$> rows) = Storage.failed_attacks row
         /\ Storage.successful_attacks row + Storage.failed_attacks row
            = Storage.total_iterations row.
Proof.
  intros db path final_level vulns score_arg. cbn zeta.
  unfold _update_statistics.
  set (f := fun (action_stats : list ActionStat) (step : Storage.Step) =>
              tally action_stats
                    (default "unknown" (Storage.step_action step))
                    (default false (Storage.step_success step))).
  assert (forall (p : list Storage.Step) (acc : list ActionStat),
            NoDup (stat_action <$> acc) ->
            Forall (fun e => 0 <= success_count e /\ 0 <= failure_count e
                             /\ 1 <= success_count e + failure_count e) acc ->
            NoDup (stat_action <$> fold_left f p acc)
            /\ (forall k, k ∈ stat_action <$> fold_left f p acc
                          <-> k ∈ stat_action <$> acc
                              \/ exists step,
                                   step ∈ p
                                   /\ default "unknown" (Storage.step_action step)
                                      = k)
            /\ Forall (fun e => 0 <= success_count e /\ 0 <= failure_count e
                                /\ 1 <= success_count e + failure_count e)
                      (fold_left f p acc)
            /\ foldr Z.add 0 (success_count <$> fold_left f p acc)
               = foldr Z.add 0 (success_count <$> acc) + Storage.count_successes p
            /\ foldr Z.add 0 (failure_count <$> fold_left f p acc)
               = foldr Z.add 0 (failure_count <$> acc)
                 + (Z.of_nat (length p) - Storage.count_successes p)) as Hgen.
  { induction p as [|step p IH]; intros acc Hnd Hpos; cbn [fold_left].
    - split; [done|]. split.
      { intros k. split; [by left|]. intros [H|(st & Hst & _)]; [done|].
        by apply elem_of_nil in Hst. }
      split; [done|]. unfold Storage.count_successes. cbn. lia.
    - destruct (IH (f acc step)) as (H1 & H2 & H3 & H4 & H5).
      { by apply tally_NoDup. }
      { by apply tally_positive. }
      split; [done|]. split.
      { intros k. rewrite H2. unfold f at 1. rewrite tally_keys. split.
        - intros [[->|?]|(st & Hst & Hk)]; [right | by left | right].
          + exists step. split; [apply elem_of_cons; by left | done].
          + exists st. split; [apply elem_of_cons; by right | done].
        - intros [?|(st & Hst & Hk)]; [left; by right|].
          apply elem_of_cons in Hst as [->|Hst]; [left; by left|].
          right. by exists st. }
      split; [done|].
      rewrite H4, H5. unfold f.
      destruct (tally_sums acc (default "unknown" (Storage.step_action step))
                  (default false (Storage.step_success step))) as [-> ->].
      rewrite count_successes_cons. cbn [length].
      destruct (default false (Storage.step_success step)); lia. }
  destruct (Hgen path [] (NoDup_nil_2) (Forall_nil_2 _)) as (H1 & H2 & H3 & H4 & H5).
  split; [done|]. split.
  { intros k. rewrite H2. split; [|by right].
    intros [H|H]; [by apply elem_of_nil in H | done]. }
  split; [done|].
  unfold Storage.save_attack_path. cbn [snd]. rewrite last_snoc.
  eexists. split; [reflexivity|]. cbn. rewrite H4, H5. cbn. lia.
Qed.

Lemma level_scores_nonneg (level : string) : 0 <= Storage.level_scores level.
Proof.
  unfold Storage.level_scores.
  repeat match goal with |- context [String.eqb ?a ?b] =>
                           destruct (String.eqb a b) end; lia.
Qed.

(** The score without case distinction, for the counts a path can have
    (in [Q] a quotient by 0 is 0). *)
Lemma calculate_path_score_closed (level : string) (s f v : Z) :
  0 <= s -> 0 <= f ->
  (Storage._calculate_path_score level s f v
   == inject_Z (Storage.level_scores level)
      * (1 + inject_Z s / (inject_Z s + inject_Z f))
      + 5 * inject_Z v - inject_Z f * (1 # 2))%Q.
Proof.
  intros Hs Hf. unfold Storage._calculate_path_score.
  rewrite inject_Z_mult, inject_Z_plus.
  destruct (s + f >? 0) eqn:Et; destruct (f >? 0) eqn:Ef; try lia.
  - change (inject_Z 5) with 5%Q. ring.
  - assert (f = 0) as -> by lia. change (inject_Z 5) with 5%Q.
    change (inject_Z 0) with 0%Q. ring.
  - assert (f = 0) as -> by lia. assert (s = 0) as -> by lia.
    change (inject_Z 5) with 5%Q. change (inject_Z 0) with 0%Q.
    assert (0 / (0 + 0) == 0)%Q as -> by reflexivity. ring.
Qed.

Lemma Qdiv_le_cross (a b c d : Q) :
  (0 < b)%Q -> (0 < d)%Q -> (a * d <= c * b)%Q -> (a / b <= c / d)%Q.
Proof.
  intros Hb Hd H. apply Qle_shift_div_r; [exact Hb|].
  assert (c / d * b == c * b / d)%Q as -> by (field; lra).
  apply Qle_shift_div_l; [exact Hd | exact H].
Qed.



(** ** ai/knowledge.py: best hint and cache *)

Section LibrarianProperties.
Import Knowledge.

Variable mock : string -> option string -> list StrategicHint.
Variable tool : nat -> string -> option string -> list StrategicHint.

Lemma max_confidence_spec (h : StrategicHint) (hs : list StrategicHint) :
  max_confidence h hs ∈ h :: hs
  /\ Forall (fun x => (confidence x <= confidence (max_confidence h hs))%Q)
            (h :: hs).
Proof.
  unfold max_confidence. revert h. induction hs as [|y ys IH]; intros h; cbn.
  - split; [apply elem_of_cons; by left|].
    constructor; [apply Qle_refl | constructor].
  - destruct (Qlt_le_dec (confidence h) (confidence y)) as [Hlt|Hle].
    + destruct (IH y) as [Hin Hall]. split; [by apply elem_of_cons; right|].
      inversion Hall as [|? ? Hy Hys]; subst.
      constructor; [|by constructor].
      eapply Qle_trans; [apply Qlt_le_weak, Hlt | exact Hy].
    + destruct (IH h) as [Hin Hall]. split.
      { apply elem_of_cons in Hin as [Hin|Hin].
        - apply elem_of_cons. by left.
        - apply elem_of_cons. right. apply elem_of_cons. by right. }
      inversion Hall as [|? ? Hx Hys]; subst.
      constructor; [exact Hx|]. constructor; [|exact Hys].
      eapply Qle_trans; [exact Hle | exact Hx].
Qed.

(** X21.  [get_best_hint] leaves the librarian exactly as
    [get_strategic_hints] with the same arguments does; it returns [None]
    exactly when that call returns no hint, and otherwise one of the
    returned hints whose confidence none of them exceeds. *)
Theorem get_best_hint_greatest :
  forall (lib : ExploitLibrarian) (s : string) (v : option string),
    let hints := (get_strategic_hints mock tool lib s v).1 in
    let best := (get_best_hint mock tool lib s v).1 in
    (get_best_hint mock tool lib s v).2 = (get_strategic_hints mock tool lib s v).2
    /\ (best = None <-> hints = [])
    /\ (forall h, best = Some h ->
          h ∈ hints
          /\ Forall (fun x => (confidence x <= confidence h)%Q) hints).
Proof.
  intros lib s v. cbn zeta. unfold get_best_hint.
  destruct (get_strategic_hints mock tool lib s v) as [[|h hs] lib']; cbn.
  - split; [done|]. split; [done|]. intros h H. discriminate.
  - split; [done|]. split; [split; discriminate|].
    intros h' [= <-]. apply max_confidence_spec.
Qed.

(** X22.  The cache is keyed by the string
    [service_name + ":" + (version or "unknown")] only: a call whose
    arguments give the key of an earlier call is answered with the hints of
    that earlier call and runs no query, also when the arguments differ.
    An absent version, the empty version and the version ["unknown"] give
    the same key. *)
Theorem cache_key_sharing :
  forall (lib : ExploitLibrarian) (s s' : string) (v v' : option string),
    cache_key s' v' = cache_key s v ->
    let first := get_strategic_hints mock tool lib s v in
    get_strategic_hints mock tool first.2 s' v' = (first.1, first.2)
    /\ cache_key s None = cache_key s (Some "")
    /\ cache_key s None = cache_key s (Some "unknown").
Proof.
  intros lib s s' v v' Hk. cbn zeta. split; [|done].
  apply get_strategic_hints_hit. rewrite Hk.
  apply get_strategic_hints_stores.
Qed.

(** In demo mode a call never asks the external tool. *)
Lemma get_strategic_hints_demo (tool' : nat -> string -> option string
                                        -> list StrategicHint)
    (lib : ExploitLibrarian) (s : string) (v : option string) :
  demo_mode lib = true ->
  get_strategic_hints mock tool lib s v = get_strategic_hints mock tool' lib s v
  /\ demo_mode (get_strategic_hints mock tool lib s v).2 = true
  /\ exists added,
       queries (get_strategic_hints mock tool lib s v).2 = queries lib ++ added
       /\ Forall (fun q => exists s0 v0, q = MockDb s0 v0) added.
Proof.
  intros Hd. unfold get_strategic_hints.
  destruct (hint_cache lib !! cache_key s v) as [h|]; cbn.
  - split; [done|]. split; [done|]. exists []. by rewrite app_nil_r.
  - rewrite Hd, andb_false_r. cbn. split; [done|]. split; [done|].
    eexists. split; [reflexivity|]. constructor; [by eexists _, _|constructor].
Qed.

End LibrarianProperties.

(** X23.  A librarian in demo mode never runs the external tool: through
    every sequence of [get_strategic_hints], [get_best_hint] and
    [clear_cache] calls it stays in demo mode, every query it adds to the
    log is a catalogue search, and the resulting librarian does not depend
    on what the tool would answer. *)
Theorem demo_mode_never_uses_tool :
  forall (mock : string -> option string -> list Knowledge.StrategicHint)
         (tool tool' : nat -> string -> option string
                       -> list Knowledge.StrategicHint)
         (cs : list Knowledge.Call) (lib : Knowledge.ExploitLibrarian),
    Knowledge.demo_mode lib = true ->
    Knowledge.calls mock tool lib cs = Knowledge.calls mock tool' lib cs
    /\ Knowledge.demo_mode (Knowledge.calls mock tool lib cs) = true
    /\ exists added,
         Knowledge.queries (Knowledge.calls mock tool lib cs)
         = Knowledge.queries lib ++ added
         /\ Forall (fun q => exists s v, q = Knowledge.MockDb s v) added.
Proof.
  intros mock tool tool'. unfold Knowledge.calls.
  induction cs as [|c cs IH]; intros lib Hd; cbn [fold_left].
  - split; [done|]. split; [done|]. exists []. by rewrite app_nil_r.
  - assert (Knowledge.call mock tool lib c = Knowledge.call mock tool' lib c
            /\ Knowledge.demo_mode (Knowledge.call mock tool lib c) = true
            /\ exists added,
                 Knowledge.queries (Knowledge.call mock tool lib c)
                 = Knowledge.queries lib ++ added
                 /\ Forall (fun q => exists s v, q = Knowledge.MockDb s v) added)
      as (Heq & Hd' & added & Hq & Hall).
    { destruct c as [s v|s v|]; cbn [Knowledge.call].
      - destruct (get_strategic_hints_demo mock tool tool' lib s v Hd)
          as (H1 & H2 & H3). rewrite <- H1.
        split; [done|]. split; [exact H2 | exact H3].
      - unfold Knowledge.get_best_hint.
        destruct (get_strategic_hints_demo mock tool tool' lib s v Hd)
          as (H1 & H2 & H3). rewrite <- H1.
        destruct (Knowledge.get_strategic_hints mock tool lib s v)
          as [[|h hs] lib']; cbn [fst snd] in *;
          (split; [done|]; split; [exact H2 | exact H3]).
      - cbn. split; [done|]. split; [done|]. exists []. by rewrite app_nil_r. }
    rewrite <- Heq.
    destruct (IH (Knowledge.call mock tool lib c) Hd')
      as (IH1 & IH2 & added' & IH3 & IH4).
    split; [exact IH1|]. split; [exact IH2|].
    exists (added ++ added'). rewrite IH3, Hq, <- app_assoc.
    split; [done|]. by apply Forall_app.
Qed.

Lemma demo_mode_never_uses_tool_witness :
  let mock := fun (s : string) (v : option string) =>
                [Knowledge.mkHint "xss_attempt" s (Some "generic_001") "XSS"
                                  (1 # 2) None None] in
  let lib := Knowledge.new_librarian true true in
  let cs := [Knowledge.CallBest "http" None; Knowledge.CallClear;
             Knowledge.CallHints "http" (Some "1.0")] in
  Knowledge.calls mock (fun _ _ _ => []) lib cs
  = Knowledge.calls mock (fun _ s _ => mock s None ++ mock s None) lib cs
  /\ Knowledge.queries (Knowledge.calls mock (fun _ _ _ => []) lib cs)
     = [Knowledge.MockDb "http" None; Knowledge.MockDb "http" (Some "1.0")].
Proof.
  cbn zeta. split.
  - apply (demo_mode_never_uses_tool
             (fun (s : string) (v : option string) =>
                [Knowledge.mkHint "xss_attempt" s (Some "generic_001") "XSS"
                                  (1 # 2) None None])
             (fun _ _ _ => [])
             (fun _ s _ => _)
             [Knowledge.CallBest "http" None; Knowledge.CallClear;
              Knowledge.CallHints "http" (Some "1.0")]
             (Knowledge.new_librarian true true)).
    reflexivity.
  - vm_compute. reflexivity.
Defined.

Lemma cache_key_sharing_witness :
  let mock := fun (s : string) (v : option string) =>
                [Knowledge.mkHint "xss_attempt" s None "XSS" (1 # 2) None None] in
  let tool := fun (_ : nat) (_ : string) (_ : option string) =>
                @nil Knowledge.StrategicHint in
  let lib := Knowledge.new_librarian true false in
  let first := Knowledge.get_strategic_hints mock tool lib "apache:2" None in
  Knowledge.get_strategic_hints mock tool first.2 "apache" (Some "2:unknown")
  = (first.1, first.2).
Proof.
  cbn zeta.
  apply (cache_key_sharing
           (fun (s : string) (v : option string) =>
              [Knowledge.mkHint "xss_attempt" s None "XSS" (1 # 2) None None])
           (fun _ _ _ => [])
           (Knowledge.new_librarian true false)
           "apache:2" "apache" None (Some "2:unknown")).
  reflexivity.
Defined.

(** ** ai/knowledge.py: the mock database *)

Lemma flat_map_length_le {A B : Type} (f : A -> list B) (g : A -> nat)
    (l : list A) :
  (forall x, length (f x) <= g x)%nat ->
  (length (flat_map f l) <= list_sum (map g l))%nat.
Proof.
  intros H. induction l as [|x l IH]; [cbn; lia|].
  change (flat_map f (x :: l)) with (f x ++ flat_map f l).
  change (list_sum (map g (x :: l))) with (g x + list_sum (map g l))%nat.
  rewrite length_app. specialize (H x). lia.
Qed.

Lemma catalogue_entries_good (service_name : string) (with_path : bool) :
  Forall (fun kv : string * list Catalogue.Exploit =>
            Forall (fun e => Catalogue.catalogue_hint service_name
                               (Catalogue.hint_of service_name with_path e))
                   kv.2)
         Catalogue._load_mock_exploit_db.
Proof.
  unfold Catalogue._load_mock_exploit_db.
  repeat (apply Forall_cons_2;
          [cbn [snd];
           repeat (apply Forall_cons_2;
                   [split; [reflexivity|]; split; [vm_compute; discriminate|];
                    split; [vm_compute; discriminate|]; split; [by eexists|];
                    eexists; reflexivity|]);
           apply Forall_nil_2|]).
  apply Forall_nil_2.
Qed.

(** X24.  Whatever [str.lower] and [re.search] answer, every hint
    [_query_mock_db] returns carries the service name it was asked for, a
    confidence between 0.5 and 0.95, an exploit id and the value of an
    [Action]; at most 15 hints are returned; without a version (absent or
    empty) the pattern matcher plays no part; and a service name whose lower
    case is empty matches every entry, so that without a version all 15
    entries come back. *)
Theorem query_mock_db_hints :
  forall (lower : string -> string)
         (re_search re_search' : string -> string -> bool)
         (service_name : string) (version : option string),
    let hints := Catalogue._query_mock_db lower re_search service_name version in
    Forall (Catalogue.catalogue_hint service_name) hints
    /\ (length hints <= 15)%nat
    /\ (Py.truthy version = false ->
        Catalogue._query_mock_db lower re_search' service_name version = hints)
    /\ (Py.truthy version = false -> lower service_name = "" ->
        length hints = 15%nat).
Proof.
  intros lower re_search re_search' service_name version. cbn zeta.
  unfold Catalogue._query_mock_db.
  set (f := fun kv : string * list Catalogue.Exploit =>
              if Catalogue.contains kv.1 (lower service_name)
                 || Catalogue.contains (lower service_name) kv.1
              then map (Catalogue.hint_of service_name true)
                       (List.filter (Catalogue.version_passes re_search version)
                                    kv.2)
              else []).
  assert (Forall (Catalogue.catalogue_hint service_name)
                 (flat_map f Catalogue._load_mock_exploit_db)) as Hmain.
  { apply Forall_flat_map.
    eapply Forall_impl; [apply (catalogue_entries_good service_name true)|].
    intros [k exs] Hexs. unfold f. cbn [fst snd] in *.
    destruct (_ || _); [|constructor].
    apply Forall_map. apply Forall_forall. intros e He.
    apply list_elem_of_In, filter_In in He as [He _].
    rewrite Forall_forall in Hexs. by apply Hexs, list_elem_of_In. }
  assert (length (flat_map f Catalogue._load_mock_exploit_db) <= 15)%nat
    as Hlen.
  { etransitivity;
      [apply (flat_map_length_le f (fun kv => length kv.2))|].
    - intros [k exs]. unfold f. cbn [fst snd].
      destruct (_ || _); [|cbn; lia].
      rewrite length_map. apply filter_length_le.
    - vm_compute. lia. }
  assert (Forall (Catalogue.catalogue_hint service_name)
                 (map (Catalogue.hint_of service_name false)
                      (Catalogue.db_get "http"))) as Hfall.
  { apply Forall_map.
    pose proof (catalogue_entries_good service_name false) as Hall.
    unfold Catalogue.db_get, Catalogue._load_mock_exploit_db in *.
    cbn [List.find fst snd String.eqb Ascii.eqb Bool.eqb] in *.
    rewrite Forall_forall in Hall.
    apply (Hall ("http", _)). apply list_elem_of_In.
    do 9 apply in_cons. apply in_eq. }
  split; [|split; [|split]].
  - destruct (flat_map f Catalogue._load_mock_exploit_db) as [|h hs] eqn:E;
      [|exact Hmain].
    destruct (existsb _ _); [exact Hfall | constructor].
  - destruct (flat_map f Catalogue._load_mock_exploit_db) as [|h hs] eqn:E;
      [|exact Hlen].
    destruct (existsb _ _); cbn; lia.
  - intros Hv.
    assert (forall e, Catalogue.version_passes re_search' version e
                      = Catalogue.version_passes re_search version e) as Hvp.
    { intros e. unfold Catalogue.version_passes. by rewrite Hv. }
    assert (forall l, List.filter (Catalogue.version_passes re_search' version) l
                      = List.filter (Catalogue.version_passes re_search version) l)
      as Hfilter.
    { intros l. apply filter_ext. exact Hvp. }
    assert (flat_map
              (fun kv : string * list Catalogue.Exploit =>
                 if Catalogue.contains kv.1 (lower service_name)
                    || Catalogue.contains (lower service_name) kv.1
                 then map (Catalogue.hint_of service_name true)
                          (List.filter
                             (Catalogue.version_passes re_search' version) kv.2)
                 else [])
              Catalogue._load_mock_exploit_db
            = flat_map f Catalogue._load_mock_exploit_db) as ->; [|done].
    apply flat_map_ext. intros kv. unfold f. by rewrite Hfilter.
  - intros Hv Hl. unfold f. rewrite Hl.
    assert (forall l, List.filter (Catalogue.version_passes re_search version) l
                      = l) as Hfilter.
    { intros l. induction l as [|e l IH]; [done|]. cbn.
      unfold Catalogue.version_passes at 1. rewrite Hv. by rewrite IH. }
    unfold Catalogue._load_mock_exploit_db.
    cbn [flat_map fst snd]. rewrite !Hfilter. reflexivity.
Qed.

(** X25.  Three of the hint actions of the librarian, [ssrf_attempt],
    [xxe_attempt] and [deserialization_attempt], are the value of no
    [AttackAction].  When such a hint is installed in the environment, no
    action the engine can execute matches it: [calculate_reward] leaves the
    state as it is and charges every failed attempt the ignored-hint
    penalty (-3, or -13 when blocked), and [get_available_actions] never
    offers the hinted action. *)
Theorem foreign_hint_never_matched :
  forall (h : Catalogue.Action) (st0 : EnvironmentState) (service : string)
         (conf : Q) (a : AttackAction) (result : AttackResult),
    h = Catalogue.SSRF \/ h = Catalogue.XXE \/ h = Catalogue.DESERIALIZATION ->
    let st := _query_strategic_hints st0 service
                                     (Some (Catalogue.value h, conf)) in
    hint_available st = 1
    /\ action_value a <> Catalogue.value h
    /\ check_hint_match st (action_value a) = false
    /\ (calculate_reward result st (action_value a)).2 = st
    /\ (success result = false ->
        (calculate_reward result st (action_value a)).1
        == if blocked result then -13 else -3)%Q
    /\ (forall l : AccessLevel,
          Catalogue.value h ∉ action_value <$> get_available_actions l).
Proof.
  intros h st0 service conf a result Hh. cbn zeta.
  assert (check_hint_match
            (_query_strategic_hints st0 service (Some (Catalogue.value h, conf)))
            (action_value a) = false) as Hm.
  { destruct Hh as [->|[->| ->]]; destruct a; reflexivity. }
  split; [reflexivity|]. split.
  { destruct Hh as [->|[->| ->]]; destruct a; discriminate. }
  split; [exact Hm|]. split.
  { rewrite calculate_reward_snd, Hm. reflexivity. }
  split.
  { intros Hs. unfold calculate_reward. rewrite Hm, Hs.
    cbn [andb negb fst snd hint_available _query_strategic_hints Z.eqb Pos.eqb].
    destruct (blocked result); cbn [fst]; lra. }
  intros l. destruct get_available_actions_table as (Hn & Hp & Hi & Ha).
  destruct Hh as [->|[->| ->]]; destruct l; rewrite ?Hn, ?Hp, ?Hi, ?Ha;
    cbn [fmap list_fmap action_value Catalogue.value];
    intros H; repeat (apply elem_of_cons in H as [H|H]; [discriminate|]);
    by apply elem_of_nil in H.
Qed.

Lemma foreign_hint_never_matched_witness :
  let st := _query_strategic_hints initial "php"
              (Some ("deserialization_attempt", (85 # 100)%Q)) in
  let result := mkResult false NONE "Failed to execute sql_injection_attempt"
                         None None false in
  check_hint_match st "sql_injection_attempt" = false
  /\ ((calculate_reward result st "sql_injection_attempt").1 == -3)%Q.
Proof.
  cbn zeta.
  destruct (foreign_hint_never_matched Catalogue.DESERIALIZATION initial "php"
              (85 # 100) SQL_INJECTION_ATTEMPT
              (mkResult false NONE "Failed to execute sql_injection_attempt"
                        None None false)
              (or_intror (or_intror eq_refl)))
    as (_ & _ & Hm & _ & Hr & _).
  split; [exact Hm | exact (Hr eq_refl)].
Defined.

(** ** main.py: the simulation loop *)

Import Simulation.

Lemma parse_action_value (a : AttackAction) :
  parse_action (action_value a) = Some a.
Proof. destruct a; reflexivity. Qed.

Lemma simulation_step_unfold (agent : QLearningAgent) (env : EnvironmentState)
    (a : AttackAction) (d : Draws) :
  let r := (execute_attack a env d).1 in
  let env1 := (execute_attack a env d).2 in
  step_result (simulation_step agent env a d) = r
  /\ step_reward (simulation_step agent env a d)
     = (calculate_reward r env1 (action_value a)).1
  /\ step_env (simulation_step agent env a d)
     = (calculate_reward r env1 (action_value a)).2.
Proof.
  cbn zeta. unfold simulation_step.
  destruct (execute_attack a env d) as [r env1]. cbn [fst snd].
  destruct (calculate_reward r env1 (action_value a)) as [rw env2]. done.
Qed.

Lemma calculate_reward_keeps (result : AttackResult) (st : EnvironmentState)
    (action : string) :
  current_access_level (calculate_reward result st action).2
  = current_access_level st
  /\ blocked_ips (calculate_reward result st action).2 = blocked_ips st
  /\ discovered_vulnerabilities (calculate_reward result st action).2
     = discovered_vulnerabilities st
  /\ discovered_services (calculate_reward result st action).2
     = discovered_services st.
Proof. rewrite calculate_reward_snd. by destruct (_ && _). Qed.

(** An iteration never raises and never skips: the agent's choice is the
    value of an available action, which [AttackAction(...)] accepts. *)
Lemma run_iterations_cons (i : Z) (d : IterationDraws)
    (rest : list IterationDraws) (s : LoopState) :
  exists a : AttackAction,
    a ∈ get_available_actions (current_access_level (loop_env s))
    /\ run_iterations i (d :: rest) s
       = let s' := record_step i s a (action_value a) (attack_draws d) in
         if bool_decide (current_access_level (loop_env s') = ADMIN)
         then Finished s'
         else run_iterations (i + 1) rest s'.
Proof.
  cbn [run_iterations].
  destruct (choose_action_member (loop_agent s)
              (value (current_access_level (loop_env s)))
              (map action_value
                   (get_available_actions (current_access_level (loop_env s))))
              (Some (loop_env s)) (choose_draws d)) as (str & -> & Hin).
  { destruct get_available_actions_table as (Hn & Hp & Hi & Ha).
    destruct (current_access_level (loop_env s));
      rewrite ?Hn, ?Hp, ?Hi, ?Ha; discriminate. }
  apply list_elem_of_In, in_map_iff in Hin as (a & <- & Ha).
  exists a. split; [by apply list_elem_of_In|].
  by rewrite parse_action_value.
Qed.

(** What one recorded iteration does to the loop variables. *)
Lemma record_step_facts (i : Z) (s : LoopState) (a : AttackAction) (d : Draws) :
  let s' := record_step i s a (action_value a) d in
  let r := (execute_attack a (loop_env s) d).1 in
  let env1 := (execute_attack a (loop_env s) d).2 in
  exists step,
    attack_path s' = attack_path s ++ [step]
    /\ ps_iteration step = i + 1
    /\ ps_action step = action_value a
    /\ ps_success step = success r
    /\ ps_blocked step = blocked r
    /\ ps_message step = message r
    /\ ps_reward step = (calculate_reward r env1 (action_value a)).1
    /\ ps_access_level step = value (current_access_level (loop_env s'))
    /\ current_access_level (loop_env s') = current_access_level env1
    /\ blocked_ips (loop_env s') = blocked_ips env1
    /\ successful_attacks s'
       = successful_attacks s + (if success r then 1 else 0)
    /\ failed_attacks s' = failed_attacks s + (if success r then 0 else 1).
Proof.
  cbn zeta. unfold record_step.
  destruct (simulation_step_unfold (loop_agent s) (loop_env s) a d)
    as (Hr & Hrw & He).
  rewrite Hr, Hrw, He. cbn [attack_path loop_env successful_attacks failed_attacks].
  destruct (calculate_reward_keeps (execute_attack a (loop_env s) d).1
              (execute_attack a (loop_env s) d).2 (action_value a))
    as (Hl & Hb & _).
  eexists. split; [reflexivity|]. cbn.
  rewrite Hl, Hb, execute_attack_returns_level.
  repeat split; destruct (success _); lia.
Qed.

Lemma execute_attack_to_admin (a : AttackAction) (st : EnvironmentState)
    (d : Draws) :
  current_access_level st <> ADMIN ->
  current_access_level (execute_attack a st d).2 = ADMIN ->
  success (execute_attack a st d).1 = true /\ a = PRIVILEGE_ESCALATION_ATTEMPT.
Proof.
  intros Hn Ha.
  destruct (execute_attack_branches a st d) as (_ & Hfail & Hsucc).
  destruct (success (execute_attack a st d).1) eqn:Es.
  - split; [done|]. specialize (Hsucc eq_refl). rewrite Ha in Hsucc.
    unfold _calculate_new_access_level in Hsucc.
    destruct a; cbn in Hsucc; try congruence;
      destruct (current_access_level st); cbn in Hsucc; congruence.
  - specialize (Hfail eq_refl). congruence.
Qed.

(** The trace of the loop from a state below ADMIN. *)
Lemma run_iterations_trace (draws : list IterationDraws) :
  forall (i : Z) (s : LoopState),
    current_access_level (loop_env s) <> ADMIN ->
    exists (s' : LoopState) (new : list PathStep),
      run_iterations i draws s = Finished s'
      /\ attack_path s' = attack_path s ++ new
      /\ (length new <= length draws)%nat
      /\ successful_attacks s'
         = successful_attacks s
           + Z.of_nat (length (List.filter ps_success new))
      /\ successful_attacks s' + failed_attacks s'
         = successful_attacks s + failed_attacks s + Z.of_nat (length new)
      /\ (forall (k : nat) (step : PathStep),
            new !! k = Some step -> ps_iteration step = i + Z.of_nat k + 1)
      /\ ((length new < length draws)%nat ->
          current_access_level (loop_env s') = ADMIN)
      /\ (forall (k : nat) (step : PathStep),
            new !! k = Some step -> (S k < length new)%nat ->
            ps_access_level step <> "admin")
      /\ (current_access_level (loop_env s') = ADMIN ->
          exists step, last new = Some step
                       /\ ps_success step = true
                       /\ ps_action step = "privilege_escalation_attempt")
      /\ (forall step, last new = Some step ->
            ps_access_level step = value (current_access_level (loop_env s')))
      /\ (new = [] -> s' = s).
Proof.
  induction draws as [|d rest IH]; intros i s Hn.
  - exists s, []. cbn. rewrite app_nil_r.
    repeat split; try done; try lia.
  - destruct (run_iterations_cons i d rest s) as (a & Hav & ->). cbn zeta.
    destruct (record_step_facts i s a (attack_draws d))
      as (step & Hpath & Hit & Hact & Hsu & Hbl & Hmsg & Hrw & Hlv & Henv
          & Hb & Hs & Hf).
    cbn zeta in *.
    set (s1 := record_step i s a (action_value a) (attack_draws d)) in *.
    destruct (bool_decide (current_access_level (loop_env s1) = ADMIN)) eqn:Ead.
    + apply bool_decide_eq_true in Ead.
      exists s1, [step]. split; [done|]. split; [done|].
      split; [cbn; lia|]. split.
      { rewrite Hs. cbn. rewrite Hsu. destruct (success _); cbn; lia. }
      split; [rewrite Hs, Hf; cbn; destruct (success _); lia|].
      split.
      { intros [|k] st Hk; cbn in Hk; [|done]. injection Hk as <-. lia. }
      split; [done|]. split.
      { intros k st Hk Hlt. cbn in Hlt. lia. }
      split.
      { intros _. exists step. split; [done|].
        rewrite Henv in Ead.
        destruct (execute_attack_to_admin a (loop_env s) (attack_draws d) Hn Ead)
          as [Hsucc ->].
        by rewrite Hsu, Hact. }
      split; [|done].
      intros st Hst. cbn in Hst. by injection Hst as <-.
    + apply bool_decide_eq_false in Ead.
      destruct (IH (i + 1) s1 Ead)
        as (s' & new & Hrun & Hp & Hlen & Hsucc & Htot & Hiter & Hearly
            & Hmid & Hadm & Hlast & Hnil).
      exists s', (step :: new). split; [exact Hrun|]. split.
      { rewrite Hp, Hpath, <- app_assoc. done. }
      split; [cbn; lia|]. split.
      { rewrite Hsucc, Hs. cbn [List.filter]. rewrite Hsu.
        destruct (success _); cbn [length]; lia. }
      split; [rewrite Htot, Hs, Hf; cbn [length]; destruct (success _); lia|].
      split.
      { intros [|k] st Hk; cbn in Hk.
        - injection Hk as <-. lia.
        - rewrite (Hiter k st Hk). lia. }
      split; [cbn [length]; intros Hlt; apply Hearly; lia|].
      split.
      { intros [|k] st Hk Hlt; cbn in Hk.
        - injection Hk as <-. rewrite Hlv.
          destruct (current_access_level (loop_env s1)); done.
        - apply (Hmid k st Hk). cbn [length] in Hlt. lia. }
      split.
      { intros Ha. destruct (Hadm Ha) as (st & Hst & H1 & H2).
        exists st. split; [|done].
        destruct new as [|x new']; [done|]. exact Hst. }
      split.
      { intros st Hst. destruct new as [|x new'].
        - cbn in Hst. injection Hst as <-. by rewrite (Hnil eq_refl).
        - apply Hlast. exact Hst. }
      discriminate.
Qed.

Lemma execute_attack_keeps_services (a : AttackAction) (st : EnvironmentState)
    (d : Draws) :
  discovered_services (execute_attack a st d).2 = discovered_services st.
Proof. execute_attack_returns a st d; reflexivity. Qed.

Lemma run_iterations_services (draws : list IterationDraws) :
  forall (i : Z) (s s' : LoopState),
    run_iterations i draws s = Finished s' ->
    discovered_services (loop_env s') = discovered_services (loop_env s).
Proof.
  induction draws as [|d rest IH]; intros i s s' Hrun.
  - cbn in Hrun. by injection Hrun as <-.
  - destruct (run_iterations_cons i d rest s) as (a & _ & Heq).
    rewrite Heq in Hrun. cbn zeta in Hrun.
    assert (discovered_services
              (loop_env (record_step i s a (action_value a) (attack_draws d)))
            = discovered_services (loop_env s)) as Hstep.
    { unfold record_step. cbn [loop_env].
      destruct (simulation_step_unfold (loop_agent s) (loop_env s) a
                  (attack_draws d)) as (_ & _ & ->).
      destruct (calculate_reward_keeps
                  (execute_attack a (loop_env s) (attack_draws d)).1
                  (execute_attack a (loop_env s) (attack_draws d)).2
                  (action_value a)) as (_ & _ & _ & ->).
      apply execute_attack_keeps_services. }
    destruct (bool_decide _) in Hrun.
    + injection Hrun as <-. exact Hstep.
    + rewrite (IH _ _ _ Hrun). exact Hstep.
Qed.

Lemma reset_with_librarian_start
    (mock : string -> option string -> list Knowledge.StrategicHint)
    (tool : nat -> string -> option string -> list Knowledge.StrategicHint)
    (env : EnvironmentState) (lib : Knowledge.ExploitLibrarian)
    (target : option string) :
  current_access_level (reset_with_librarian mock tool env lib target).1 = NONE
  /\ discovered_services (reset_with_librarian mock tool env lib target).1 = []
  /\ blocked_ips (reset_with_librarian mock tool env lib target).1 = ∅.
Proof.
  unfold reset_with_librarian. destruct (Py.truthy target); [|done].
  destruct (Knowledge.get_best_hint _ _ _ _ _) as [[h|] lib']; done.
Qed.

Lemma count_successes_stored (path : list PathStep) :
  Storage.count_successes (map stored_step path)
  = Z.of_nat (length (List.filter ps_success path)).
Proof.
  induction path as [|p path IH]; [done|].
  cbn [map]. rewrite count_successes_cons, IH. cbn [List.filter].
  change (default false (Storage.step_success (stored_step p)))
    with (ps_success p).
  destruct (ps_success p); cbn [length]; lia.
Qed.

Lemma value_admin (l : AccessLevel) : value l = "admin" <-> l = ADMIN.
Proof. destruct l; split; intros H; try done; discriminate. Qed.


(** X27.  The loop stops early only at ADMIN.  A path shorter than the
    requested number of iterations ends at final level ["admin"]; no entry
    but the last reports the level ["admin"]; and whenever the final level
    is ["admin"], the last entry is a successful
    [privilege_escalation_attempt] reporting that level. *)
Theorem run_simulation_stops_at_admin :
  forall (mock : string -> option string -> list Knowledge.StrategicHint)
         (tool : nat -> string -> option string -> list Knowledge.StrategicHint)
         (g : Globals) (scan : option (list string))
         (draws : list IterationDraws),
    match run_simulation mock tool g scan draws with
    | inl _ => False
    | inr (resp, g') =>
        let path := resp_attack_path resp in
        ((length path < length draws)%nat ->
         resp_final_access_level resp = "admin")
        /\ (forall (k : nat) (step : PathStep),
              path !! k = Some step -> (S k < length path)%nat ->
              ps_access_level step <> "admin")
        /\ (resp_final_access_level resp = "admin" ->
            exists step, last path = Some step
                         /\ ps_success step = true
                         /\ ps_action step = "privilege_escalation_attempt"
                         /\ ps_access_level step = "admin")
        /\ (forall step, last path = Some step ->
              ps_access_level step = resp_final_access_level resp)
    end.
Proof.
  intros mock tool g scan draws. unfold run_simulation.
  set (start := match scan with
                | Some names => _
                | None => (environment g, None)
                end).
  destruct start as [env0 target].
  pose proof (reset_with_librarian_start mock tool env0 (exploit_librarian g)
                target) as (Hl0 & _).
  destruct (reset_with_librarian mock tool env0 (exploit_librarian g) target)
    as [env lib]. cbn [fst] in *.
  destruct (run_iterations_trace draws 0 (mkLoop env (ai_agent g) [] 0 0))
    as (s' & new & Hrun & Hp & _ & _ & _ & _ & Hearly & Hmid & Hadm & Hlast & _).
  { cbn. rewrite Hl0. discriminate. }
  rewrite Hrun. cbn [attack_path app] in Hp.
  unfold Storage.save_attack_path. cbn zeta.
  cbn [resp_attack_path resp_final_access_level]. rewrite Hp.
  split; [intros Hlt; by rewrite (Hearly Hlt)|]. split; [exact Hmid|].
  split; [|exact Hlast].
  intros Hfin. apply value_admin in Hfin.
  destruct (Hadm Hfin) as (st & Hst & H1 & H2).
  exists st. split; [done|]. split; [done|]. split; [done|].
  rewrite (Hlast st Hst). by apply value_admin.
Qed.

Lemma blocked_failure_reward (result : AttackResult) (st : EnvironmentState)
    (action : string) :
  success result = false -> blocked result = true ->
  ((calculate_reward result st action).1 <= -10)%Q.
Proof.
  intros Hs Hb. unfold calculate_reward. rewrite Hs, Hb.
  destruct (check_hint_match st action);
    destruct (hint_available st =? 1) eqn:Ha;
    cbn [andb negb fst snd hint_available mark_hint_followed];
    rewrite ?Ha; cbn [andb negb fst snd]; lra.
Qed.

(** From a blocked state below ADMIN the loop runs through all its
    iterations, each a blocked failure at the same level. *)
Lemma run_iterations_blocked (draws : list IterationDraws) :
  forall (i : Z) (s : LoopState),
    is_blocked (loop_env s) attacker_ip = true ->
    current_access_level (loop_env s) <> ADMIN ->
    exists (s' : LoopState) (new : list PathStep),
      run_iterations i draws s = Finished s'
      /\ attack_path s' = attack_path s ++ new
      /\ length new = length draws
      /\ Forall (blocked_entry (value (current_access_level (loop_env s)))) new.
Proof.
  induction draws as [|d rest IH]; intros i s Hb Hn.
  - exists s, []. cbn. rewrite app_nil_r. repeat split; constructor.
  - destruct (run_iterations_cons i d rest s) as (a & _ & ->). cbn zeta.
    destruct (record_step_facts i s a (attack_draws d))
      as (step & Hpath & _ & _ & Hsu & Hbl & Hmsg & Hrw & Hlv & Henv & Hbi & _).
    cbn zeta in *.
    set (s1 := record_step i s a (action_value a) (attack_draws d)) in *.
    rewrite (execute_attack_blocked a (loop_env s) (attack_draws d) Hb) in *.
    cbn [fst snd success blocked message] in *.
    assert (current_access_level (loop_env s1) <> ADMIN) as Hn1
      by (by rewrite Henv).
    assert (is_blocked (loop_env s1) attacker_ip = true) as Hb1.
    { unfold is_blocked in *. by rewrite Hbi. }
    rewrite bool_decide_eq_false_2 by done.
    destruct (IH (i + 1) s1 Hb1 Hn1) as (s' & new & Hrun & Hp & Hlen & Hall).
    exists s', (step :: new). split; [exact Hrun|]. split.
    { rewrite Hp, Hpath, <- app_assoc. done. }
    split; [cbn; lia|]. constructor.
    + unfold blocked_entry. rewrite Hbl, Hsu, Hmsg, Hrw, Hlv, Henv.
      repeat split. by apply blocked_failure_reward.
    + by rewrite Henv in Hall.
Qed.

Lemma execute_attack_blocked_result (a : AttackAction) (st : EnvironmentState)
    (d : Draws) :
  blocked (execute_attack a st d).1 = true ->
  success (execute_attack a st d).1 = false
  /\ current_access_level (execute_attack a st d).2 = current_access_level st.
Proof.
  intros Hb.
  destruct (success (execute_attack a st d).1) eqn:Es.
  - destruct (execute_attack_success a st d Es) as (_ & _ & Hnb). congruence.
  - split; [done|].
    by destruct (execute_attack_branches a st d) as (_ & Hfail & _); apply Hfail.
Qed.

(** Once an entry is blocked, the loop goes on to the end and records only
    blocked failures. *)
Lemma run_iterations_after_block (draws : list IterationDraws) :
  forall (i : Z) (s : LoopState),
    current_access_level (loop_env s) <> ADMIN ->
    exists (s' : LoopState) (new : list PathStep),
      run_iterations i draws s = Finished s'
      /\ attack_path s' = attack_path s ++ new
      /\ forall (k : nat) (step : PathStep),
           new !! k = Some step -> ps_blocked step = true ->
           length new = length draws
           /\ forall (j : nat) (later : PathStep),
                (k < j)%nat -> new !! j = Some later ->
                blocked_entry (ps_access_level step) later.
Proof.
  induction draws as [|d rest IH]; intros i s Hn.
  - exists s, []. cbn. rewrite app_nil_r. repeat split; done.
  - destruct (run_iterations_cons i d rest s) as (a & _ & Heq). cbn zeta in Heq.
    destruct (record_step_facts i s a (attack_draws d))
      as (step & Hpath & _ & _ & Hsu & Hbl & Hmsg & Hrw & Hlv & Henv & Hbi & _).
    cbn zeta in *.
    set (s1 := record_step i s a (action_value a) (attack_draws d)) in *.
    destruct (bool_decide (current_access_level (loop_env s1) = ADMIN)) eqn:Ead.
    + apply bool_decide_eq_true in Ead.
      exists s1, [step]. split; [by rewrite Heq|]. split; [done|].
      intros [|k] st Hk Hblk; cbn in Hk; [|done]. injection Hk as <-.
      exfalso. rewrite Hbl in Hblk.
      destruct (execute_attack_blocked_result a (loop_env s) (attack_draws d)
                  Hblk) as [_ Hsame].
      rewrite Henv, Hsame in Ead. done.
    + apply bool_decide_eq_false in Ead.
      destruct (IH (i + 1) s1 Ead) as (s' & new & Hrun & Hp & Hafter).
      exists s', (step :: new). split; [by rewrite Heq|]. split.
      { rewrite Hp, Hpath, <- app_assoc. done. }
      intros [|k] st Hk Hblk; cbn in Hk.
      * injection Hk as <-. rewrite Hbl in Hblk.
        pose proof (execute_attack_detected a (loop_env s) (attack_draws d) Hblk)
          as Hdet.
        assert (is_blocked (loop_env s1) attacker_ip = true) as Hb1.
        { unfold is_blocked in *. by rewrite Hbi. }
        destruct (run_iterations_blocked rest (i + 1) s1 Hb1 Ead)
          as (s2 & new2 & Hrun2 & Hp2 & Hlen2 & Hall2).
        rewrite Hrun in Hrun2. injection Hrun2 as <-.
        rewrite Hp in Hp2. apply app_inv_head in Hp2. subst new2.
        split; [cbn; lia|].
        intros [|j] later Hj Hlater; [lia|]. cbn in Hlater.
        rewrite Hlv. rewrite Forall_forall in Hall2.
        apply Hall2. by eapply list_elem_of_lookup_2.
      * destruct (Hafter k st Hk Hblk) as [Hlen Hlater].
        split; [cbn; lia|].
        intros [|j] later Hj Hl; [lia|]. cbn in Hl.
        apply (Hlater j later); [lia | done].
Qed.

(** X28.  Being blocked does not end a simulation.  If some entry of the
    path is blocked, the loop ran through every requested iteration, and
    every later entry is a blocked failure with the message
    ["IP address is blocked"], a reward of at most -10 and the access level
    of the blocked entry. *)
Theorem run_simulation_after_block :
  forall (mock : string -> option string -> list Knowledge.StrategicHint)
         (tool : nat -> string -> option string -> list Knowledge.StrategicHint)
         (g : Globals) (scan : option (list string))
         (draws : list IterationDraws),
    match run_simulation mock tool g scan draws with
    | inl _ => False
    | inr (resp, g') =>
        let path := resp_attack_path resp in
        forall (k : nat) (step : PathStep),
          path !! k = Some step -> ps_blocked step = true ->
          length path = length draws
          /\ forall (j : nat) (later : PathStep),
               (k < j)%nat -> path !! j = Some later ->
               ps_blocked later = true
               /\ ps_success later = false
               /\ ps_message later = "IP address is blocked"
               /\ (ps_reward later <= -10)%Q
               /\ ps_access_level later = ps_access_level step
    end.
Proof.
  intros mock tool g scan draws. unfold run_simulation.
  set (start := match scan with
                | Some names => _
                | None => (environment g, None)
                end).
  destruct start as [env0 target].
  pose proof (reset_with_librarian_start mock tool env0 (exploit_librarian g)
                target) as (Hl0 & _).
  destruct (reset_with_librarian mock tool env0 (exploit_librarian g) target)
    as [env lib]. cbn [fst] in *.
  destruct (run_iterations_after_block draws 0 (mkLoop env (ai_agent g) [] 0 0))
    as (s' & new & Hrun & Hp & Hafter).
  { cbn. rewrite Hl0. discriminate. }
  rewrite Hrun. cbn [attack_path app] in Hp.
  unfold Storage.save_attack_path. cbn zeta. cbn [resp_attack_path].
  rewrite Hp. intros k step Hk Hblk.
  destruct (Hafter k step Hk Hblk) as [Hlen Hlater].
  split; [exact Hlen|]. intros j later Hj Hl. by apply (Hlater j later).
Qed.

(** ** ai_agent.py: statistics *)

Lemma q_table_size_insert (m : gmap string (gmap string Q)) (k : string)
    (row : gmap string Q) :
  (map_fold (fun _ (r : gmap string Q) n => size r + n) 0 (<[k := row]> m)
   + size (default ∅ (m !! k))
   = map_fold (fun _ (r : gmap string Q) n => size r + n) 0 m + size row)%nat.
Proof.
  assert (forall (z1 z2 : gmap string Q) (y : nat),
             (size z1 + (size z2 + y) = size z2 + (size z1 + y))%nat) as Hcomm
    by (intros; lia).
  destruct (m !! k) as [old|] eqn:Ek; cbn [default].
  - rewrite <- (insert_delete_eq m).
    rewrite (map_fold_insert_L _ _ k row (delete k m));
      [|intros; apply Hcomm | apply lookup_delete_eq].
    rewrite (map_fold_delete_L _ _ k old m); [|intros; apply Hcomm | exact Ek].
    unfold id. lia.
  - rewrite (map_fold_insert_L _ _ k row m); [|intros; apply Hcomm | exact Ek].
    rewrite map_size_empty. lia.
Qed.

(** X29.  The [q_table_size] reported by [get_statistics] counts the
    state-action pairs that hold a value: writing a pair that holds none
    raises it by one, rewriting a pair leaves it unchanged, and reading,
    although it may store an empty row, never changes it.  After
    [QLearningAgent.reset] the size is 0, every pair reads 0, the total
    reward and episode count are 0 and epsilon is 0.1 whatever the agent was
    built with. *)
Theorem q_table_size_counts_pairs :
  forall (agent : QLearningAgent) (t : QTable) (s a : string) (v : Q),
    q_table_size (set_q_value t s a v)
    = (q_table_size t
       + match default ∅ (table t !! s) !! a with Some _ => 0 | None => 1 end)%nat
    /\ q_table_size (get_q_value t s a).2 = q_table_size t
    /\ get_statistics (agent_reset agent) = mkStatistics (1 # 10) 0 0 0
    /\ q_value (q_table (agent_reset agent)) s a = 0%Q.
Proof.
  intros agent t s a v. split; [|split; [|split]].
  - unfold q_table_size. rewrite table_set_q_value.
    pose proof (q_table_size_insert (table t) s
                  (<[a := v]> (default ∅ (table t !! s)))) as H.
    rewrite map_size_insert in H.
    destruct (default ∅ (table t !! s) !! a); cbn in H; lia.
  - unfold q_table_size, get_q_value.
    destruct (table t !! s) as [row|] eqn:Es; cbn [snd table set_table]; [done|].
    pose proof (q_table_size_insert (table t) s ∅) as H.
    rewrite Es in H. cbn [default] in H. lia.
  - unfold get_statistics, agent_reset, q_table_size, qtable_reset. cbn.
    by rewrite map_fold_empty.
  - rewrite q_value_lookup. cbn. by rewrite !lookup_empty.
Qed.

Lemma record_step_agent (i : Z) (s : LoopState) (a : AttackAction) (d : Draws) :
  let s' := record_step i s a (action_value a) d in
  exists step,
    attack_path s' = attack_path s ++ [step]
    /\ total_rewards (loop_agent s')
       = (total_rewards (loop_agent s) + ps_reward step)%Q
    /\ agent_epsilon (loop_agent s') = agent_epsilon (loop_agent s)
    /\ epsilon_decay (loop_agent s') = epsilon_decay (loop_agent s)
    /\ min_epsilon (loop_agent s') = min_epsilon (loop_agent s)
    /\ episode_count (loop_agent s') = episode_count (loop_agent s).
Proof.
  cbn zeta. unfold record_step, simulation_step.
  destruct (execute_attack a (loop_env s) d) as [r env1].
  destruct (calculate_reward r env1 (action_value a)) as [rw env2].
  cbn. eexists. split; [reflexivity|]. done.
Qed.

Lemma run_iterations_agent (draws : list IterationDraws) :
  forall (i : Z) (s s' : LoopState),
    run_iterations i draws s = Finished s' ->
    exists new,
      attack_path s' = attack_path s ++ new
      /\ total_rewards (loop_agent s')
         = fold_left Qplus (map ps_reward new) (total_rewards (loop_agent s))
      /\ agent_epsilon (loop_agent s') = agent_epsilon (loop_agent s)
      /\ epsilon_decay (loop_agent s') = epsilon_decay (loop_agent s)
      /\ min_epsilon (loop_agent s') = min_epsilon (loop_agent s)
      /\ episode_count (loop_agent s') = episode_count (loop_agent s).
Proof.
  induction draws as [|d rest IH]; intros i s s' Hrun.
  - cbn in Hrun. injection Hrun as <-. exists []. by rewrite app_nil_r.
  - destruct (run_iterations_cons i d rest s) as (a & _ & Heq).
    rewrite Heq in Hrun. cbn zeta in Hrun.
    destruct (record_step_agent i s a (attack_draws d))
      as (step & Hp & Ht & He & Hd & Hm & Hc).
    cbn zeta in *.
    destruct (bool_decide _) in Hrun.
    + injection Hrun as <-. exists [step]. split; [exact Hp|].
      cbn [map fold_left]. by rewrite Ht.
    + destruct (IH _ _ _ Hrun) as (new & Hp' & Ht' & He' & Hd' & Hm' & Hc').
      exists (step :: new). split; [by rewrite Hp', Hp, <- app_assoc|].
      cbn [map fold_left]. rewrite Ht', Ht, He', Hd', Hm', Hc'. done.
Qed.

(** X30.  Over one simulation the agent's [total_rewards] grows by the
    rewards recorded in the path, added in order; its exploration rate, its
    decay parameters and its episode count are left as they were: the
    simulation neither decays epsilon nor counts the episode. *)
Theorem run_simulation_agent_totals :
  forall (mock : string -> option string -> list Knowledge.StrategicHint)
         (tool : nat -> string -> option string -> list Knowledge.StrategicHint)
         (g : Globals) (scan : option (list string))
         (draws : list IterationDraws),
    match run_simulation mock tool g scan draws with
    | inl _ => False
    | inr (resp, g') =>
        total_rewards (ai_agent g')
        = fold_left Qplus (map ps_reward (resp_attack_path resp))
                    (total_rewards (ai_agent g))
        /\ agent_epsilon (ai_agent g') = agent_epsilon (ai_agent g)
        /\ epsilon_decay (ai_agent g') = epsilon_decay (ai_agent g)
        /\ min_epsilon (ai_agent g') = min_epsilon (ai_agent g)
        /\ episode_count (ai_agent g') = episode_count (ai_agent g)
    end.
Proof.
  intros mock tool g scan draws. unfold run_simulation.
  set (start := match scan with
                | Some names => _
                | None => (environment g, None)
                end).
  destruct start as [env0 target].
  pose proof (reset_with_librarian_start mock tool env0 (exploit_librarian g)
                target) as (Hl0 & _).
  destruct (reset_with_librarian mock tool env0 (exploit_librarian g) target)
    as [env lib]. cbn [fst] in *.
  destruct (run_iterations_trace draws 0 (mkLoop env (ai_agent g) [] 0 0))
    as (s' & new & Hrun & _).
  { cbn. rewrite Hl0. discriminate. }
  destruct (run_iterations_agent draws _ _ _ Hrun)
    as (new' & Hp & Ht & He & Hd & Hm & Hc).
  rewrite Hrun. cbn [attack_path loop_agent app] in *.
  unfold Storage.save_attack_path. cbn zeta.
  cbn [resp_attack_path ai_agent]. rewrite Hp. done.
Qed.
